(** * Secure-finality tools: a shallow embedding and its properties

    The development follows the three programs of the repository:
    - [waitForSecureUpTo]      (packages/secure-finality/src/waitForSecureUpTo.ts)
    - [installSignAndSendSecure] and the [signAndSendSecure] status handler
                               (packages/secure-finality/src/index.ts)
    - the two scripts          (scripts/secure-tx-test.mjs and
                                scripts/advance-secure-up-to.mjs).

    Part I holds the model, Part II the properties. *)

From Stdlib Require Import ZArith Lia Bool List.
From stdpp Require Import base option list gmap strings.
Import ListNotations.
Local Open Scope Z_scope.

(* ===================================================================== *)
(** * Part I: the model                                                   *)
(* ===================================================================== *)

(** ** JavaScript values as far as the programs look at them *)

Module Js.

(** A JS [number].  Every finite number these programs compare is a block
    height (a [u32] header number or a [BN] converted by [toNumber]), so the
    finite ones are integers; [NaN] and the infinities are kept apart because
    [Number.isFinite] and the comparisons treat them specially. *)
Inductive number : Type :=
| Fin (z : Z)
| NaN
| PosInf
| NegInf.

(** [Number.isFinite(n)] *)
Definition isFinite (n : number) : bool :=
  match n with Fin _ => true | _ => false end.

(** [a >= b] on numbers: false as soon as one side is [NaN]. *)
Definition num_ge (a b : number) : bool :=
  match a, b with
  | NaN, _ | _, NaN => false
  | Fin x, Fin y => y <=? x
  | PosInf, _ => true
  | _, NegInf => true
  | Fin _, PosInf => false
  | NegInf, _ => false
  end.

(** [a > b] on numbers. *)
Definition num_gt (a b : number) : bool :=
  match a, b with
  | NaN, _ | _, NaN => false
  | Fin x, Fin y => y <? x
  | PosInf, PosInf => false
  | PosInf, _ => true
  | NegInf, _ => false
  | Fin _, NegInf => true
  | Fin _, PosInf => false
  end.

(** Exceptions that can travel through the programs. *)
Inductive exn : Type :=
| ReferenceError            (* a [const] read before its initialisation *)
| TypeError
| ConnectionError           (* transport failure of the chain client *)
| NotFoundError             (* unknown block, unknown registry entry *)
| Error (message : string). (* [new Error(message)] *)

(** The completion of an awaited call: a value or a thrown exception. *)
Inductive completion (A : Type) : Type :=
| Normal (a : A)
| Throw (e : exn).
Arguments Normal {A} a.
Arguments Throw {A} e.

Definition cbind {A B} (c : completion A) (k : A -> completion B) : completion B :=
  match c with
  | Normal a => k a
  | Throw e => Throw e
  end.

(** A promise as its caller sees it. *)
Inductive promise : Type :=
| Pending
| Fulfilled
| Rejected (e : exn).

(** [resolve()] / [reject(e)]: only the first settlement counts. *)
Definition settle (p new : promise) : promise :=
  match p with
  | Pending => new
  | _ => p
  end.

(** What a storage subscription (or a one-shot storage query) hands to the
    program.  The programs only ever evaluate
    [upTo?.toNumber ? upTo.toNumber() : Number(upTo)] on it. *)
Inductive value : Type :=
| VUndefined
| VNull
| VNumber (n : number)
| VCodec (toNumber : completion number)   (* has a [toNumber] method; BN's
                                             throws above 53 bits *)
| VOther (coerced : completion number).   (* anything else, with the result
                                             of [Number(upTo)] *)

(** [upTo?.toNumber ? upTo.toNumber() : Number(upTo)] *)
Definition asNumber (upTo : value) : completion number :=
  match upTo with
  | VCodec r => r
  | VUndefined => Normal NaN
  | VNull => Normal (Fin 0)
  | VNumber n => Normal n
  | VOther r => r
  end.

End Js.

(** ** waitForSecureUpTo *)

Module Waiter.
Import Js.

(** The subscription opened by [palletAnchor.secureUpTo(callback)], together
    with the state of the [const unsub] that receives its handle. *)
Inductive subscription : Type :=
| Subscribing      (* the call is awaited, [unsub] is not initialised yet *)
| Listening        (* [unsub] holds the handle, the subscription is live *)
| TornDown         (* [unsub()] has been called *)
| NoSubscription.  (* the call was rejected, nothing was opened *)

Record waiter : Type := mkWaiter {
  targetBlock : number;
  sub : subscription;
  future : promise     (* the promise returned to the caller *)
}.

(** Everything that can happen to a wait after it was started.  The promise
    is the only thing [waitForSecureUpTo] returns, so the caller itself has
    no input here. *)
Inductive input : Type :=
| Established                 (* the awaited subscribe call returns the handle *)
| SubscribeFailed (e : exn)   (* the awaited subscribe call throws *)
| Update (upTo : value).      (* the subscription calls the callback *)

(** [new Promise(async (resolve, reject) => { try { const unsub = await ... *)
Definition start (target : number) : waiter :=
  {| targetBlock := target; sub := Subscribing; future := Pending |}.

(** The callback [async (upTo) => { ... }]: the new state and the completion
    of the callback itself. *)
Definition on_update (w : waiter) (upTo : value) : waiter * completion unit :=
  match asNumber upTo with
  | Throw e => (w, Throw e)
  | Normal n =>
      if isFinite n && num_ge n (targetBlock w) then
        match sub w with
        | Subscribing | NoSubscription => (w, Throw ReferenceError)
        | Listening | TornDown =>
            ({| targetBlock := targetBlock w;
                sub := TornDown;                        (* unsub();  *)
                future := settle (future w) Fulfilled   (* resolve(); *) |},
             Normal tt)
        end
      else (w, Normal tt)
  end.

Definition step (w : waiter) (i : input) : waiter :=
  match i with
  | Established =>
      match sub w with
      | Subscribing =>
          {| targetBlock := targetBlock w; sub := Listening; future := future w |}
      | _ => w
      end
  | SubscribeFailed e =>
      match sub w with
      | Subscribing =>
          {| targetBlock := targetBlock w;
             sub := NoSubscription;
             future := settle (future w) (Rejected e)   (* catch (e) { reject(e) } *) |}
      | _ => w
      end
  | Update upTo => fst (on_update w upTo)
  end.

Definition run (w : waiter) (ins : list input) : waiter := fold_left step ins w.

(** How the storage entry behaves for one subscription.  polkadot.js settles
    the promise of the subscribe call before it schedules the first callback,
    so the updates of [Delivers] arrive once [unsub] is initialised. *)
Inductive source : Type :=
| Rejects (e : exn)
| Delivers (updates : list value).

Definition script (anchor : source) : list input :=
  match anchor with
  | Rejects e => [SubscribeFailed e]
  | Delivers updates => Established :: map Update updates
  end.

Definition waitForSecureUpTo (palletAnchor : source) (target : number) : promise :=
  future (run (start target) (script palletAnchor)).

(** A state is reachable when some inputs lead to it from a fresh wait. *)
Definition reachable (w : waiter) : Prop :=
  exists target ins, w = run (start target) ins.

(** Does a notification carry a finite number? *)
Definition finite_value (upTo : value) : bool :=
  match asNumber upTo with
  | Normal n => isFinite n
  | Throw _ => false
  end.

(** Does a notification satisfy the target? *)
Definition satisfies (target : number) (upTo : value) : bool :=
  match asNumber upTo with
  | Normal n => isFinite n && num_ge n target
  | Throw _ => false
  end.

(** The subscription and the promise move together. *)
Definition coherent (w : waiter) : Prop :=
  match sub w with
  | Subscribing | Listening => future w = Pending
  | TornDown => future w = Fulfilled
  | NoSubscription => exists e, future w = Rejected e
  end.

End Waiter.

(** ** Transaction results as polkadot.js delivers them *)

Module Tx.
Import Js.

(** A block hash. *)
Definition hash : Type := N.

(** [result.status]: the variants of [ExtrinsicStatus]. *)
Inductive ExtrinsicStatus : Type :=
| Future
| Ready
| Broadcast
| InBlock (h : hash)
| Retracted (h : hash)
| FinalityTimeout (h : hash)
| Finalized (h : hash)
| Usurped (h : hash)
| Dropped
| Invalid.

(** One entry of [result.events], as far as [event.section] and
    [event.method] go. *)
Record EventRecord : Type := mkEvent {
  section : string;
  method : string
}.

(** [result.dispatchError]: a module error (an index into the registry) or
    any other variant, of which only [toString()] is used. *)
Inductive DispatchError : Type :=
| Module (index error : N)
| OtherDispatch (text : string).

(** What [api.registry.findMetaError] returns. *)
Record RegistryError : Type := mkRegistryError {
  err_section : string;
  err_name : string;
  err_docs : list string
}.

Record SubmittableResult : Type := mkResult {
  status : option ExtrinsicStatus;        (* [None] is [undefined] *)
  events : option (list EventRecord);
  dispatchError : option DispatchError
}.

(** [event.section === "system" && event.method === "ExtrinsicFailed"] *)
Definition is_ExtrinsicFailed (e : EventRecord) : bool :=
  String.eqb (section e) "system" && String.eqb (method e) "ExtrinsicFailed".

(** [docs.join(" ")] *)
Fixpoint join (docs : list string) : string :=
  match docs with
  | [] => EmptyString
  | [d] => d
  | d :: rest => d +:+ " " +:+ join rest
  end.

End Tx.

(** ** signAndSendSecure (index.ts) *)

Module Tracker.
Import Js Waiter Tx.

(** [ISecureResult]: a result with the two optional fields. *)
Record ISecureResult : Type := mkSecure {
  base : SubmittableResult;
  isSecureFinalized : option bool;
  secureFinalizedAt : option number
}.

(** [result as ISecureResult] *)
Definition as_secure (result : SubmittableResult) : ISecureResult :=
  {| base := result; isSecureFinalized := None; secureFinalizedAt := None |}.

(** [{ ...result, isSecureFinalized: true, secureFinalizedAt: includedAt }] *)
Definition synthetic (result : SubmittableResult) (includedAt : number) : ISecureResult :=
  {| base := result; isSecureFinalized := Some true; secureFinalizedAt := Some includedAt |}.

(** The user's callback: it is handed a result and returns or throws. *)
Definition StatusCb : Type := ISecureResult -> completion unit.

(** The part of [api] the handler uses: [api.rpc.chain.getHeader(hash)]
    followed by [header.number.toNumber()], and [api.query.anchor]. *)
Record Api : Type := mkApi {
  getHeader : hash -> completion number;
  anchor : source
}.

(** What the handler does to the outside, in order. *)
Inductive effect : Type :=
| Callback (r : ISecureResult)          (* [cb(r)] *)
| GetHeader (h : hash)                  (* [api.rpc.chain.getHeader(h)] *)
| WaitForSecureUpTo (target : number).  (* [waitForSecureUpTo(api.query.anchor, target)] *)

(** [(result.events || []).some(...)] *)
Definition failed (result : SubmittableResult) : bool :=
  existsb is_ExtrinsicFailed (default [] (events result)).

(** [if (cb) await cb(r)] *)
Definition call_cb (cb : option StatusCb) (r : ISecureResult) : list effect * completion unit :=
  match cb with
  | None => ([], Normal tt)
  | Some f => ([Callback r], f r)
  end.

(** The status callback handed to [signAndSend]: its effects and the state
    of the promise the [async] function returns. *)
Definition on_status (api : Api) (cb : option StatusCb) (result : SubmittableResult)
  : list effect * promise :=
  let '(fan, c) := call_cb cb (as_secure result) in
  match c with
  | Throw e => (fan, Rejected e)
  | Normal _ =>
      match status result with
      | Some (Finalized finalizedHash) =>
          if failed result then (fan, Fulfilled)
          else
            match getHeader api finalizedHash with
            | Throw e => (fan ++ [GetHeader finalizedHash], Rejected e)
            | Normal includedAt =>
                let waiting :=
                  fan ++ [GetHeader finalizedHash; WaitForSecureUpTo includedAt] in
                match waitForSecureUpTo (anchor api) includedAt with
                | Pending => (waiting, Pending)
                | Rejected e => (waiting, Rejected e)
                | Fulfilled =>
                    let '(last, c') := call_cb cb (synthetic result includedAt) in
                    (waiting ++ last,
                     match c' with Normal _ => Fulfilled | Throw e => Rejected e end)
                end
            end
      | _ => (fan, Fulfilled)
      end
  end.

(** [signAndSendSecure]: the statuses are what the underlying [signAndSend]
    delivers, in chain order; each one is handled before the next arrives. *)
Definition signAndSendSecure (api : Api) (cb : option StatusCb)
  (statuses : list SubmittableResult) : list effect :=
  flat_map (fun result => fst (on_status api cb result)) statuses.

(** The invocations of the user's callback among the effects. *)
Fixpoint callbacks (es : list effect) : list ISecureResult :=
  match es with
  | [] => []
  | Callback r :: rest => r :: callbacks rest
  | _ :: rest => callbacks rest
  end.

Definition is_secure (r : ISecureResult) : bool :=
  match isSecureFinalized r with Some true => true | _ => false end.


Definition isFinalized (result : SubmittableResult) : bool :=
  match status result with Some (Finalized _) => true | _ => false end.

(** What [if (cb) await cb(r)] adds to the effects. *)
Definition fan_out (cb : option StatusCb) (r : ISecureResult) : list effect :=
  fst (call_cb cb r).

End Tracker.

(** ** The transfer script (secure-tx-test.mjs) *)

Module Script.
Import Js Waiter Tx.

(** The lines the status callback prints.  The progress line of the
    script's own copy of [waitForSecureUpTo] is left out; the copy is the
    library function otherwise. *)
Inductive line : Type :=
| LReady
| LBroadcast
| LInBlock (h : hash)
| LFinalized (h : hash)
| LDispatchError (section name docs : string)  (* [section.name - docs] *)
| LDispatchErrorText (text : string)           (* [dispatchError?.toString()] *)
| LTxFinalizedIn (n : number).

Inductive output : Type :=
| Log (l : line)
| Unsub
| ReadHeader (h : hash)
| AwaitSecureUpTo (target : number)
| Pause (ms : Z)
| Disconnect
| Exit (code : Z).

(** How one run of the callback ends. *)
Inductive ending : Type :=
| Returned
| Threw (e : exn)
| Suspended        (* the wait never resolves *)
| ProcessExit (code : Z).

Record Chain : Type := mkChain {
  getHeader : hash -> completion number;
  secureUpTo : source;
  findMetaError : N -> N -> completion RegistryError
}.

(** [events?.some(...)]: [undefined] when there are no events, hence falsy. *)
Definition failed (result : SubmittableResult) : bool :=
  match events result with
  | None => false
  | Some es => existsb is_ExtrinsicFailed es
  end.

(** The branch [if (failed) { ... process.exit(1) }]. *)
Definition report_failure (api : Chain) (result : SubmittableResult) : list output * ending :=
  match dispatchError result with
  | Some (Module index error) =>
      match findMetaError api index error with
      | Throw e => ([], Threw e)
      | Normal meta =>
          ([Log (LDispatchError (err_section meta) (err_name meta) (join (err_docs meta)));
            Unsub; Disconnect; Exit 1], ProcessExit 1)
      end
  | Some (OtherDispatch text) =>
      ([Log (LDispatchErrorText text); Unsub; Disconnect; Exit 1], ProcessExit 1)
  | None =>
      ([Log (LDispatchErrorText "undefined"); Unsub; Disconnect; Exit 1], ProcessExit 1)
  end.

(** The callback handed to [tx.signAndSend] by [main]. *)
Definition on_transfer_status (api : Chain) (result : SubmittableResult) : list output * ending :=
  match status result with
  | None => ([], Threw TypeError)          (* [status.isReady] of [undefined] *)
  | Some Ready => ([Log LReady], Returned)
  | Some Broadcast => ([Log LBroadcast], Returned)
  | Some (InBlock h) => ([Log (LInBlock h)], Returned)
  | Some (Finalized h) =>
      if failed result then
        let '(es, fin) := report_failure api result in
        (Log (LFinalized h) :: es, fin)
      else
        match getHeader api h with
        | Throw e => ([Log (LFinalized h); ReadHeader h], Threw e)
        | Normal includedAtFinalizedBlock =>
            let waiting :=
              [Log (LFinalized h); ReadHeader h;
               Log (LTxFinalizedIn includedAtFinalizedBlock); Unsub;
               AwaitSecureUpTo includedAtFinalizedBlock] in
            match waitForSecureUpTo (secureUpTo api) includedAtFinalizedBlock with
            | Pending => (waiting, Suspended)
            | Rejected e => (waiting, Threw e)
            | Fulfilled => (waiting ++ [Pause 50; Disconnect; Exit 0], ProcessExit 0)
            end
        end
  | Some _ => ([], Returned)
  end.

Definition is_secure_wait (e : output) : bool :=
  match e with AwaitSecureUpTo _ => true | _ => false end.


End Script.

(** ** installSignAndSendSecure (index.ts) *)

Module Install.
Import Js.

Abbreviation loc := positive.

(** Property values, as far as truthiness goes. *)
Inductive jsval : Type :=
| JUndefined
| JNull
| JBool (b : bool)
| JFunction (name : string)
| JObject (l : loc).

Definition truthy (v : jsval) : bool :=
  match v with
  | JUndefined | JNull => false
  | JBool b => b
  | JFunction _ | JObject _ => true
  end.

(** An object: its own properties and its prototype ([None] is [null]). *)
Record object : Type := mkObject {
  props : gmap string jsval;
  proto : option loc
}.

(** The store all instances and prototypes live in; a prototype is shared by
    every instance that points to it. *)
Abbreviation heap := (gmap loc object).

(** [o[k]]: own property first, then along the prototype chain. *)
Fixpoint get_prop (fuel : nat) (h : heap) (l : loc) (k : string) : jsval :=
  match fuel with
  | O => JUndefined
  | S fuel' =>
      match h !! l with
      | None => JUndefined
      | Some o =>
          match props o !! k with
          | Some v => v
          | None =>
              match proto o with
              | Some p => get_prop fuel' h p k
              | None => JUndefined
              end
          end
      end
  end.

(** A chain longer than the store has a cycle, so this fuel is enough. *)
Definition get (h : heap) (l : loc) (k : string) : jsval :=
  get_prop (S (size h)) h l k.

(** [o[k] = v]: writes an own property. *)
Definition set (h : heap) (l : loc) (k : string) (v : jsval) : option heap :=
  match h !! l with
  | None => None
  | Some o => Some (<[l := {| props := <[k := v]> (props o); proto := proto o |}]> h)
  end.

(** The closure installed on the prototype. *)
Definition signAndSendSecure_fn : jsval := JFunction "signAndSendSecure".

Definition installSignAndSendSecure (h : heap) (anyTxInstance : loc) : completion heap :=
  match h !! anyTxInstance with
  | None => Throw TypeError
  | Some inst =>
      match proto inst with
      | None => Throw TypeError       (* [proto] is [null] *)
      | Some p =>
          if truthy (get h p "signAndSendSecure") then Normal h  (* already installed *)
          else
            match set h p "signAndSendSecure" signAndSendSecure_fn with
            | Some h' => Normal h'
            | None => Throw TypeError
            end
      end
  end.

End Install.

(** ** The advancer script (advance-secure-up-to.mjs) *)

Module Advancer.
Import Js Tx.

Record config : Type := mkConfig {
  INTERVAL_SEC : Z;     (* poll interval, whole seconds *)
  DRY_RUN : bool
}.

(** The two module-level variables [inFlight] and [stop]. *)
Record flags : Type := mkFlags {
  inFlight : bool;
  stop : bool
}.

Definition initial : flags := {| inFlight := false; stop := false |}.

(** What the loop does to the outside, in order.  Console output is left
    out, except the line that replaces the call in dry-run mode. *)
Inductive action : Type :=
| ReadFinalized                  (* [getFinalizedNumber(api)] *)
| ReadSecureUpTo                 (* [getSecureUpTo(api, api.query[PALLET])] *)
| Submit (targetBlock : number)  (* [sudo.sudo(noteAnchorVerified(targetBlock)).signAndSend] *)
| Settled (ok : bool)            (* the promise of [sendSudoAdvance] resolves / rejects *)
| DryLog (targetBlock : number)  (* [[DRY] Would call ...] *)
| Sleep (ms : Z).

(** How the sudo call behaves once it is submitted. *)
Inductive submission : Type :=
| SubmitThrows (e : exn)
| Statuses (results : list SubmittableResult).

(** What the chain answers during one iteration of the loop. *)
Record tick_env : Type := mkEnv {
  finalizedHead : completion hash;           (* [api.rpc.chain.getFinalizedHead()] *)
  header : hash -> completion number;        (* [getHeader(hash)], [header.number.toNumber()] *)
  secureUpTo : completion value;             (* [palletQuery.secureUpTo()] before the call *)
  sudo : number -> submission;               (* the sudo call for a target *)
  secureUpTo_after : completion value;       (* [palletQuery.secureUpTo()] after the call *)
  findMetaError : N -> N -> completion RegistryError
}.

(** *** A small monad: flags, a trace of actions, and abrupt completions *)

Inductive outcome (A : Type) : Type :=
| Ret (a : A)
| Exc (e : exn)    (* a thrown exception *)
| Continue         (* [continue] *)
| Hang.            (* an [await] that never returns *)
Arguments Ret {A} a.
Arguments Exc {A} e.
Arguments Continue {A}.
Arguments Hang {A}.

Definition M (A : Type) : Type := flags -> list action * flags * outcome A.

Definition ret {A} (a : A) : M A := fun s => ([], s, Ret a).

Definition bind {A B} (m : M A) (k : A -> M B) : M B :=
  fun s =>
    let '(t1, s1, o1) := m s in
    match o1 with
    | Ret a => let '(t2, s2, o2) := k a s1 in (t1 ++ t2, s2, o2)
    | Exc e => (t1, s1, Exc e)
    | Continue => (t1, s1, Continue)
    | Hang => (t1, s1, Hang)
    end.

Declare Scope js_scope.
Delimit Scope js_scope with js.
Notation "'let*' x ':=' m 'in' k" := (bind m (fun x => k))
  (at level 10, x binder, k at level 200) : js_scope.
Notation "m ';;' k" := (bind m (fun _ => k))
  (at level 100, right associativity) : js_scope.
Local Open Scope js_scope.

Definition emit (a : action) : M unit := fun s => ([a], s, Ret tt).

(** [await] of a call the chain has answered. *)
Definition await {A} (c : completion A) : M A :=
  fun s => ([], s, match c with Normal a => Ret a | Throw e => Exc e end).

Definition throw {A} (e : exn) : M A := fun s => ([], s, Exc e).
Definition hang {A} : M A := fun s => ([], s, Hang).
Definition continue_ {A} : M A := fun s => ([], s, Continue).

Definition get_inFlight : M bool := fun s => ([], s, Ret (inFlight s)).
Definition set_inFlight (b : bool) : M unit :=
  fun s => ([], {| inFlight := b; stop := stop s |}, Ret tt).

(** [await sleep(ms)] *)
Definition sleep (ms : Z) : M unit := emit (Sleep ms).

(** [Promise.all([a, b])]: both are started; the result is an error as soon
    as one of them fails. *)
Definition promise_all {A B} (ma : M A) (mb : M B) : M (A * B) :=
  fun s =>
    let '(t1, s1, o1) := ma s in
    let '(t2, s2, o2) := mb s1 in
    (t1 ++ t2, s2,
     match o1, o2 with
     | Ret a, Ret b => Ret (a, b)
     | Exc e, _ => Exc e
     | _, Exc e => Exc e
     | Hang, _ | _, Hang => Hang
     | Continue, _ | _, Continue => Continue
     end).

(** [try { body } catch (e) { handler } finally { finalizer }] *)
Definition try_catch_finally (body : M unit) (handler : exn -> M unit)
  (finalizer : M unit) : M unit :=
  fun s =>
    let '(t1, s1, o1) := body s in
    match o1 with
    | Hang => (t1, s1, Hang)
    | _ =>
        let '(t2, s2, o2) :=
          match o1 with
          | Exc e => handler e s1
          | _ => ([], s1, o1)
          end in
        match o2 with
        | Hang => (t1 ++ t2, s2, Hang)
        | _ =>
            let '(t3, s3, o3) := finalizer s2 in
            (t1 ++ t2 ++ t3, s3, match o3 with Ret _ => o2 | _ => o3 end)
        end
    end.

(** *** The functions of the script *)

Definition getFinalizedNumber (env : tick_env) : M number :=
  emit ReadFinalized ;;
  await (cbind (finalizedHead env) (header env)).

(** [up?.toNumber ? up.toNumber() : Number(up)] on the storage value. *)
Definition getSecureUpTo (up : completion value) : M number :=
  emit ReadSecureUpTo ;;
  await (cbind up asNumber).

(** [events?.some(...)] *)
Definition failed (result : SubmittableResult) : bool :=
  match events result with
  | None => false
  | Some es => existsb is_ExtrinsicFailed es
  end.

(** The status callback inside [sendSudoAdvance]: [Some p] when it settles
    the promise with [p]; [None] when it only logs, or throws before it
    reaches [resolve]/[reject]. *)
Definition sudo_on_status (env : tick_env) (result : SubmittableResult) : option promise :=
  match status result with
  | Some (Finalized _) =>
      if failed result then
        match dispatchError result with
        | Some (Module index error) =>
            match findMetaError env index error with
            | Normal _ => Some (Rejected (Error "sudo extrinsic failed"))
            | Throw _ => None
            end
        | _ => Some (Rejected (Error "sudo extrinsic failed"))
        end
      else Some Fulfilled
  | _ => None
  end.

(** The promise of [sendSudoAdvance] after the statuses the call goes
    through; the first settlement unsubscribes. *)
Fixpoint sudo_statuses (env : tick_env) (results : list SubmittableResult) : promise :=
  match results with
  | [] => Pending
  | r :: rest =>
      match sudo_on_status env r with
      | Some p => p
      | None => sudo_statuses env rest
      end
  end.

Definition sudo_promise (env : tick_env) (targetBlock : number) : promise :=
  match sudo env targetBlock with
  | SubmitThrows e => Rejected e
  | Statuses results => sudo_statuses env results
  end.

(** [await sendSudoAdvance(api, sender, targetBlock)] *)
Definition sendSudoAdvance (env : tick_env) (targetBlock : number) : M unit :=
  emit (Submit targetBlock) ;;
  match sudo_promise env targetBlock with
  | Pending => hang
  | Fulfilled => emit (Settled true)
  | Rejected e => emit (Settled false) ;; throw e
  end.

(** The [try] block of the main loop. *)
Definition tick_body (cfg : config) (env : tick_env) : M unit :=
  let* busy := get_inFlight in
  if (busy : bool) then
    sleep 200 ;; continue_
  else
    set_inFlight true ;;
    let* reads := promise_all (getFinalizedNumber env) (getSecureUpTo (secureUpTo env)) in
    let finalized := fst reads in
    let currentUp := snd reads in
    let need := num_gt finalized currentUp in
    if need then
      if DRY_RUN cfg then emit (DryLog finalized)
      else
        sendSudoAdvance env finalized ;;
        let* after := getSecureUpTo (secureUpTo_after env) in
        ret tt
    else ret tt.

(** One iteration of [while (!stop) { try ... catch ... finally ... }]. *)
Definition iteration (cfg : config) (env : tick_env) : M unit :=
  try_catch_finally
    (tick_body cfg env)
    (fun e => sleep 1000)
    (set_inFlight false ;; sleep (INTERVAL_SEC cfg * 1000)).

(** Where the loop is after the iterations the environment covers.  The
    loop only reads [stop]; the one place that writes it is the SIGINT
    handler, which is not part of this model: [main_loop] is the loop for as
    long as no signal arrives, from flags that may already have [stop] set. *)
Inductive loop_status : Type :=
| Running            (* at the loop head, more iterations to come *)
| Stuck              (* suspended for ever inside an iteration *)
| Crashed (e : exn)  (* an exception left the loop *)
| Exited.            (* [while (!stop)] saw [stop] *)

Fixpoint main_loop (cfg : config) (envs : list tick_env) (s : flags)
  : list action * flags * loop_status :=
  if stop s then ([], s, Exited)
  else
    match envs with
    | [] => ([], s, Running)
    | env :: rest =>
        let '(t, s1, o) := iteration cfg env s in
        match o with
        | Hang => (t, s1, Stuck)
        | Exc e => (t, s1, Crashed e)
        | Ret _ | Continue =>
            let '(t', s2, st) := main_loop cfg rest s1 in
            (t ++ t', s2, st)
        end
    end.

Definition trace_of (r : list action * flags * loop_status) : list action := fst (fst r).
Definition flags_of (r : list action * flags * loop_status) : flags := snd (fst r).
Definition status_of (r : list action * flags * loop_status) : loop_status := snd r.

(** The targets of the privileged calls in a trace. *)
Fixpoint submitted (t : list action) : list number :=
  match t with
  | [] => []
  | Submit n :: rest => n :: submitted rest
  | _ :: rest => submitted rest
  end.

(** Calls submitted and not yet settled after a trace. *)
Fixpoint outstanding_from (k : Z) (t : list action) : Z :=
  match t with
  | [] => k
  | Submit _ :: rest => outstanding_from (k + 1) rest
  | Settled _ :: rest => outstanding_from (k - 1) rest
  | _ :: rest => outstanding_from k rest
  end.

Definition outstanding (t : list action) : Z := outstanding_from 0 t.

(** Did the statuses of a submitted call reach [Finalized]? *)
Definition finalized_seen (call : submission) : bool :=
  match call with
  | SubmitThrows _ => false
  | Statuses results =>
      existsb (fun r => match status r with Some (Finalized _) => true | _ => false end)
        results
  end.

(** *** The iteration by cases, and the sequencing of calls *)

Definition idle (s : flags) : flags := {| inFlight := false; stop := stop s |}.
Definition busy (s : flags) : flags := {| inFlight := true; stop := stop s |}.

(** The two reads of a tick, as [Promise.all] hands them over. *)
Definition observed (env : tick_env) : completion (number * number) :=
  match cbind (finalizedHead env) (header env), cbind (secureUpTo env) asNumber with
  | Normal finalized, Normal currentUp => Normal (finalized, currentUp)
  | Throw e, _ => Throw e
  | Normal _, Throw e => Throw e
  end.

(** An iteration entered with [inFlight] off, case by case. *)
Definition iteration_cases (cfg : config) (env : tick_env) (s : flags)
  : list action * flags * outcome unit :=
  let interval := Sleep (INTERVAL_SEC cfg * 1000) in
  match observed env with
  | Throw _ =>
      ([ReadFinalized; ReadSecureUpTo; Sleep 1000; interval], idle s, Ret tt)
  | Normal (finalized, currentUp) =>
      if num_gt finalized currentUp then
        if DRY_RUN cfg then
          ([ReadFinalized; ReadSecureUpTo; DryLog finalized; interval], idle s, Ret tt)
        else
          match sudo_promise env finalized with
          | Pending =>
              ([ReadFinalized; ReadSecureUpTo; Submit finalized], busy s, Hang)
          | Rejected _ =>
              ([ReadFinalized; ReadSecureUpTo; Submit finalized; Settled false;
                Sleep 1000; interval], idle s, Ret tt)
          | Fulfilled =>
              match cbind (secureUpTo_after env) asNumber with
              | Normal _ =>
                  ([ReadFinalized; ReadSecureUpTo; Submit finalized; Settled true;
                    ReadSecureUpTo; interval], idle s, Ret tt)
              | Throw _ =>
                  ([ReadFinalized; ReadSecureUpTo; Submit finalized; Settled true;
                    ReadSecureUpTo; Sleep 1000; interval], idle s, Ret tt)
              end
          end
      else ([ReadFinalized; ReadSecureUpTo; interval], idle s, Ret tt)
  end.

(** Is a call outstanding after [t], when [busy] tells whether one was
    outstanding before? *)
Fixpoint pending_after (busy : bool) (t : list action) : bool :=
  match t with
  | [] => busy
  | Submit _ :: rest => pending_after true rest
  | Settled _ :: rest => pending_after false rest
  | _ :: rest => pending_after busy rest
  end.

(** Along [t] a call is submitted only while none is outstanding, and while
    one is outstanding the next thing to happen is its settlement. *)
Fixpoint sequenced (busy : bool) (t : list action) : bool :=
  match t with
  | [] => true
  | Submit _ :: rest => negb busy && sequenced true rest
  | Settled _ :: rest => busy && sequenced false rest
  | _ :: rest => negb busy && sequenced false rest
  end.

Definition count_of (busy : bool) : Z := if busy then 1 else 0.

(** *** Scenario A *)

Definition sudo_accepted : list SubmittableResult :=
  [ {| status := Some Ready; events := None; dispatchError := None |};
    {| status := Some (InBlock 1%N); events := Some []; dispatchError := None |};
    {| status := Some (Finalized 1%N); events := Some []; dispatchError := None |} ].

(** Modelled from the spec: the pallet call [noteAnchorVerified(up_to)], which
    is not part of the repository.  Once the call is finalized the watermark
    is the height it recorded. *)
Definition noteAnchorVerified (watermark up_to : Z) : Z := up_to.

(** The chain during one tick: the finalized height is [sample], the
    watermark is [watermark], and a sudo call is accepted and finalized. *)
Definition chain_tick (sample watermark : Z) : tick_env :=
  {| finalizedHead := Normal 0%N;
     header := fun _ => Normal (Fin sample);
     secureUpTo := Normal (VCodec (Normal (Fin watermark)));
     sudo := fun _ => Statuses sudo_accepted;
     secureUpTo_after := Normal (VCodec (Normal (Fin (noteAnchorVerified watermark sample))));
     findMetaError := fun _ _ => Throw NotFoundError |}.

(** The ticks for a list of finalized-height samples, the watermark moving
    only through the calls the loop submits. *)
Fixpoint chain_ticks (samples : list Z) (watermark : Z) : list tick_env :=
  match samples with
  | [] => []
  | sample :: rest =>
      chain_tick sample watermark ::
      chain_ticks rest
        (if watermark <? sample then noteAnchorVerified watermark sample else watermark)
  end.

(** The heights a run over [samples] is expected to target. *)
Fixpoint lagging (samples : list Z) (watermark : Z) : list number :=
  match samples with
  | [] => []
  | sample :: rest =>
      if watermark <? sample
      then Fin sample :: lagging rest (noteAnchorVerified watermark sample)
      else lagging rest watermark
  end.

Definition live : config := {| INTERVAL_SEC := 6; DRY_RUN := false |}.

End Advancer.

(** ** Sample inputs *)

Module Samples.
Import Js Waiter Tx.

Definition ready : SubmittableResult :=
  {| status := Some Ready; events := None; dispatchError := None |}.

Definition in_block : SubmittableResult :=
  {| status := Some (InBlock 7%N); events := Some []; dispatchError := None |}.

Definition finalized_ok : SubmittableResult :=
  {| status := Some (Finalized 7%N);
     events := Some [ {| section := "system"; method := "ExtrinsicSuccess" |} ];
     dispatchError := None |}.

(** Scenario B: inclusion block 100, the watermark already at 105. *)
Definition scenario_B : Tracker.Api :=
  {| Tracker.getHeader := fun _ => Normal (Fin 100);
     Tracker.anchor := Delivers [VCodec (Normal (Fin 105))] |}.

Definition extrinsic_failed : EventRecord :=
  {| section := "system"; method := "ExtrinsicFailed" |}.

(** A finalized transfer the runtime rejected with a non-module error. *)
Definition bad_origin : SubmittableResult :=
  {| status := Some (Finalized 7%N);
     events := Some [extrinsic_failed];
     dispatchError := Some (OtherDispatch "BadOrigin") |}.

Definition lib_api : Tracker.Api :=
  {| Tracker.getHeader := fun _ => Normal (Fin 100);
     Tracker.anchor := Delivers [VCodec (Normal (Fin 105))] |}.

Definition script_api : Script.Chain :=
  {| Script.getHeader := fun _ => Normal (Fin 100);
     Script.secureUpTo := Delivers [VCodec (Normal (Fin 105))];
     Script.findMetaError := fun _ _ =>
       Normal {| err_section := "balances"; err_name := "InsufficientBalance";
                 err_docs := ["Balance too low"] |} |}.

Definition insufficient_balance : SubmittableResult :=
  {| status := Some (Finalized 7%N);
     events := Some [extrinsic_failed];
     dispatchError := Some (Module 6%N 2%N) |}.

(** A store with the prototype of submittable extrinsics at 1 and two
    extrinsics at 2 and 3. *)
Definition submittable : Install.heap :=
  {[ 1%positive := {| Install.props := {[ "signAndSend" := Install.JFunction "signAndSend" ]};
                      Install.proto := None |};
     2%positive := {| Install.props := ∅; Install.proto := Some 1%positive |};
     3%positive := {| Install.props := ∅; Install.proto := Some 1%positive |} ]}.

Definition installed : Install.heap :=
  <[ 1%positive :=
       {| Install.props := <[ "signAndSendSecure" := Install.signAndSendSecure_fn ]>
                     {[ "signAndSend" := Install.JFunction "signAndSend" ]};
          Install.proto := None |} ]> submittable.

(** A tick during which the node cannot be reached. *)
Definition unreachable_node : Advancer.tick_env :=
  {| Advancer.finalizedHead := Throw ConnectionError;
     Advancer.header := fun _ => Throw ConnectionError;
     Advancer.secureUpTo := Throw ConnectionError;
     Advancer.sudo := fun _ => Advancer.SubmitThrows ConnectionError;
     Advancer.secureUpTo_after := Throw ConnectionError;
     Advancer.findMetaError := fun _ _ => Throw NotFoundError |}.

End Samples.

(** ** Views on the effects of signAndSendSecure *)

Module TrackerViews.
Import Js Tx Tracker.

Definition is_ordinary (r : ISecureResult) : bool := negb (is_secure r).

(** The effects that are not callback invocations. *)
Fixpoint chain_effects (es : list effect) : list effect :=
  match es with
  | [] => []
  | Callback _ :: rest => chain_effects rest
  | e :: rest => e :: chain_effects rest
  end.

(** The targets of the waits a run of the library handler starts. *)
Fixpoint library_waits (es : list effect) : list number :=
  match es with
  | [] => []
  | WaitForSecureUpTo target :: rest => target :: library_waits rest
  | _ :: rest => library_waits rest
  end.

(** The targets of the waits a run of the script's callback starts. *)
Fixpoint script_waits (es : list Script.output) : list number :=
  match es with
  | [] => []
  | Script.AwaitSecureUpTo target :: rest => target :: script_waits rest
  | _ :: rest => script_waits rest
  end.

End TrackerViews.

(** ** The usage example of the package README *)

Module Readme.
Import Js Tx Tracker.

(** The lines the callback of the example prints. *)
Inductive printed : Type :=
| PReady
| PInBlock
| PFinalized
| PSecureFinalized (secureFinalizedAt : option number).

(** The callback handed to [tx.signAndSendSecure] in the example:
    [if (res.status?.isReady) ... else if (res.status?.isInBlock) ...
     else if (res.status?.isFinalized) ... else if (res.isSecureFinalized) ...] *)
Definition usage_cb (res : ISecureResult) : option printed :=
  match status (base res) with
  | Some Ready => Some PReady
  | Some (InBlock _) => Some PInBlock
  | Some (Finalized _) => Some PFinalized
  | _ =>
      match isSecureFinalized res with
      | Some true => Some (PSecureFinalized (secureFinalizedAt res))
      | _ => None
      end
  end.

End Readme.

(** ** The start of the transfer script (secure-tx-test.mjs, [main]) *)

Module Transfer.
Import Js.

(** The environment variables the script reads; [None] when unset. *)
Record environment : Type := mkEnvironment {
  env_TO : option string;
  env_AMOUNT : option string;
  env_WATCH_ONLY_TARGET_BLOCK : option string
}.

(** [process.env.X || d]: an unset or empty variable gives the default. *)
Definition or_default (v : option string) (d : string) : string :=
  match v with
  | Some (String c rest) => String c rest
  | _ => d
  end.

Definition Bob : string := "5FHneW46xGXgs5mUiveU4sbTyGBzmstUspZC92UhjJM694ty".

Definition TO (env : environment) : string := or_default (env_TO env) Bob.

Definition AMOUNT (env : environment) : string :=
  or_default (env_AMOUNT env) "1000000000000".

(** [process.env.WATCH_ONLY_TARGET_BLOCK ? Number(...) : null]; the
    conversion of a string to a number is a parameter. *)
Definition WATCH_ONLY_TARGET_BLOCK (Number : string -> number) (env : environment)
  : option number :=
  match env_WATCH_ONLY_TARGET_BLOCK env with
  | Some (String c rest) => Some (Number (String c rest))
  | _ => None
  end.

(** What the connected node offers: [api.query[PALLET]], its [secureUpTo],
    [api.tx.balances?.transferKeepAlive] and [api.tx.balances?.transfer]. *)
Record surface : Type := mkSurface {
  has_palletQuery : bool;
  has_secureUpTo : bool;
  has_transferKeepAlive : bool;
  has_transfer : bool
}.

(** Where [main] goes before any status arrives. *)
Inductive decision : Type :=
| ExitMissingStorage                             (* [process.exit(1)] *)
| WatchOnly (target : number)                    (* wait only, no transaction *)
| ExitToRequired                                 (* [process.exit(1)] *)
| ExitNoTransfer                                 (* [process.exit(1)] *)
| Send (keepAlive : bool) (to amount : string).  (* [makeTransfer(TO, AMOUNT).signAndSend] *)

Definition startup (Number : string -> number) (env : environment) (api : surface)
  : decision :=
  if negb (has_palletQuery api) || negb (has_secureUpTo api) then ExitMissingStorage
  else
    match WATCH_ONLY_TARGET_BLOCK Number env with
    | Some target => WatchOnly target
    | None =>
        match TO env with
        | EmptyString => ExitToRequired          (* [if (!TO)] *)
        | _ =>
            if has_transferKeepAlive api then Send true (TO env) (AMOUNT env)
            else if has_transfer api then Send false (TO env) (AMOUNT env)
            else ExitNoTransfer
        end
    end.

(** Is an environment variable unset or empty? *)
Definition unset_or_empty (v : option string) : bool :=
  match v with
  | None | Some EmptyString => true
  | Some _ => false
  end.

End Transfer.

(** ** More sample inputs *)

Module MoreSamples.
Import Js Waiter Tx Advancer Samples.

Definition dry : config := {| INTERVAL_SEC := 6; DRY_RUN := true |}.



(** A lagging tick whose sudo call fails with a module error the registry
    does not know. *)
Definition undecodable : tick_env :=
  {| finalizedHead := Normal 0%N;
     header := fun _ => Normal (Fin 11);
     secureUpTo := Normal (VCodec (Normal (Fin 10)));
     sudo := fun _ => Statuses ([ready; in_block] ++ [insufficient_balance]);
     secureUpTo_after := Normal (VCodec (Normal (Fin 10)));
     findMetaError := fun _ _ => Throw NotFoundError |}.

(** A store in which the prototype at 2 inherits a truthy
    [signAndSendSecure] from the object at 1; the extrinsic is at 3. *)
Definition inheriting : Install.heap :=
  {[ 1%positive := {| Install.props := {[ "signAndSendSecure" := Install.JBool true ]};
                      Install.proto := None |};
     2%positive := {| Install.props := ∅; Install.proto := Some 1%positive |};
     3%positive := {| Install.props := ∅; Install.proto := Some 2%positive |} ]}.

End MoreSamples.

(* ===================================================================== *)
(** * Part II: properties                                                 *)
(* ===================================================================== *)

(** ** waitForSecureUpTo *)

Module WaiterFacts.
Import Js Waiter.

Lemma run_snoc (w : waiter) (ins : list input) (i : input) :
  run w (ins ++ [i]) = step (run w ins) i.
Proof. unfold run. now rewrite fold_left_app. Qed.

Lemma run_cons (w : waiter) (i : input) (ins : list input) :
  run w (i :: ins) = run (step w i) ins.
Proof. reflexivity. Qed.

(** The target is fixed when the wait starts. *)
Lemma step_target (w : waiter) (i : input) :
  targetBlock (step w i) = targetBlock w.
Proof.
  destruct i as [|e|upTo]; simpl.
  - now destruct (sub w).
  - now destruct (sub w).
  - unfold on_update. destruct (asNumber upTo) as [n|e]; [|reflexivity].
    destruct (isFinite n && num_ge n (targetBlock w)); [|reflexivity].
    now destruct (sub w).
Qed.

Lemma coherent_start (target : number) : coherent (start target).
Proof. reflexivity. Qed.

Lemma coherent_step (w : waiter) (i : input) : coherent w -> coherent (step w i).
Proof.
  destruct w as [target s f]. unfold coherent. simpl. intros Hw.
  destruct i as [|e|upTo]; simpl.
  - destruct s; simpl; auto.
  - destruct s; simpl; auto. subst f. simpl. eauto.
  - unfold on_update. simpl. destruct (asNumber upTo) as [n|e]; [|exact Hw].
    destruct (isFinite n && num_ge n target); [|exact Hw].
    destruct s; simpl; auto; now subst f.
Qed.

Lemma coherent_reachable (w : waiter) : reachable w -> coherent w.
Proof.
  intros (target & ins & ->). induction ins as [|i ins IH] using rev_ind.
  - apply coherent_start.
  - rewrite run_snoc. now apply coherent_step.
Qed.

(** A settled promise stays as it is. *)
Lemma step_settled (w : waiter) (i : input) :
  future w <> Pending -> future (step w i) = future w.
Proof.
  intros Hp. destruct i as [|e|upTo]; simpl.
  - now destruct (sub w).
  - destruct (sub w); simpl; try reflexivity. now destruct (future w).
  - unfold on_update. destruct (asNumber upTo) as [n|e]; [|reflexivity].
    destruct (isFinite n && num_ge n (targetBlock w)); [|reflexivity].
    destruct (sub w); simpl; try reflexivity; now destruct (future w).
Qed.

Lemma run_settled (ins : list input) (w : waiter) :
  future w <> Pending -> future (run w ins) = future w.
Proof.
  revert w. induction ins as [|i ins IH]; intros w Hp; [reflexivity|].
  rewrite run_cons, IH; rewrite step_settled; auto.
Qed.

(** A satisfying update on a live subscription resolves and unsubscribes. *)
Lemma update_satisfying (w : waiter) (upTo : value) :
  sub w = Listening -> future w = Pending ->
  satisfies (targetBlock w) upTo = true ->
  step w (Update upTo) =
    {| targetBlock := targetBlock w; sub := TornDown; future := Fulfilled |}.
Proof.
  intros Hs Hf Hsat. simpl. unfold on_update, satisfies in *.
  destruct (asNumber upTo) as [n|e]; [|discriminate].
  rewrite Hsat, Hs, Hf. reflexivity.
Qed.

(** An update that does not satisfy the target changes nothing. *)
Lemma update_unsatisfying (w : waiter) (upTo : value) :
  satisfies (targetBlock w) upTo = false -> step w (Update upTo) = w.
Proof.
  intros Hsat. simpl. unfold on_update, satisfies in *.
  destruct (asNumber upTo) as [n|e]; [|reflexivity].
  now rewrite Hsat.
Qed.

(** Over a live subscription, the wait resolves exactly when some update
    satisfies the target. *)
Lemma run_updates_resolves (updates : list value) (w : waiter) :
  sub w = Listening -> future w = Pending ->
  existsb (satisfies (targetBlock w)) updates = true ->
  future (run w (map Update updates)) = Fulfilled.
Proof.
  revert w. induction updates as [|u us IH]; intros w Hs Hf Hex; [discriminate|].
  simpl map. rewrite run_cons. simpl in Hex.
  destruct (satisfies (targetBlock w) u) eqn:Hu.
  - rewrite (update_satisfying w u Hs Hf Hu).
    rewrite run_settled; [reflexivity|discriminate].
  - rewrite (update_unsatisfying w u Hu). now apply IH.
Qed.

Lemma run_updates_pending (updates : list value) (w : waiter) :
  future w = Pending ->
  existsb (satisfies (targetBlock w)) updates = false ->
  run w (map Update updates) = w.
Proof.
  revert w. induction updates as [|u us IH]; intros w Hf Hex; [reflexivity|].
  simpl map. rewrite run_cons. simpl in Hex.
  apply orb_false_iff in Hex as [Hu Hus].
  rewrite (update_unsatisfying w u Hu). now apply IH.
Qed.

(** The wait as a function of what the storage entry delivers. *)
Lemma waitForSecureUpTo_delivers (updates : list value) (target : number) :
  waitForSecureUpTo (Delivers updates) target =
    if existsb (satisfies target) updates then Fulfilled else Pending.
Proof.
  unfold waitForSecureUpTo. simpl script. rewrite run_cons. simpl step.
  destruct (existsb (satisfies target) updates) eqn:Hex.
  - now apply run_updates_resolves.
  - now rewrite run_updates_pending.
Qed.

Lemma waitForSecureUpTo_rejects (e : exn) (target : number) :
  waitForSecureUpTo (Rejects e) target = Rejected e.
Proof. reflexivity. Qed.

(** A notification that comes while the subscribe call is still awaited
    finds [unsub] uninitialised: the callback throws before [resolve()] and
    the wait stays pending. *)
Lemma update_before_handle (target : number) (upTo : value) :
  satisfies target upTo = true ->
  on_update (start target) upTo = (start target, Throw ReferenceError).
Proof.
  unfold satisfies, on_update. destruct (asNumber upTo) as [n|e]; [|discriminate].
  simpl. now intros ->.
Qed.

(** C5: whatever the target [T], when the first value the subscription
    delivers converts to a number [n >= T], the very first notification
    resolves the promise and tears the subscription down; no later
    notification is needed, and none changes the result. *)
Theorem first_notification_resolves (T : number) (upTo : value) (n : Z)
  (later : list value) :
  asNumber upTo = Normal (Fin n) ->
  num_ge (Fin n) T = true ->
  let w := step (step (start T) Established) (Update upTo) in
  future w = Fulfilled /\ sub w = TornDown /\
  snd (on_update (step (start T) Established) upTo) = Normal tt /\
  waitForSecureUpTo (Delivers [upTo]) T = Fulfilled /\
  waitForSecureUpTo (Delivers (upTo :: later)) T = Fulfilled.
Proof.
  intros Hn Hge.
  assert (Hsat : satisfies T upTo = true).
  { unfold satisfies. now rewrite Hn. }
  simpl. unfold on_update. rewrite Hn. simpl targetBlock. simpl isFinite.
  rewrite Hge. simpl. repeat split; trivial.
  - rewrite waitForSecureUpTo_delivers. simpl. now rewrite Hsat.
  - rewrite waitForSecureUpTo_delivers. simpl. now rewrite Hsat.
Qed.

Lemma first_notification_resolves_witness :
  waitForSecureUpTo (Delivers [VCodec (Normal (Fin 105))]) (Fin 100) = Fulfilled.
Proof.
  apply (first_notification_resolves (Fin 100) (VCodec (Normal (Fin 105))) 105 []);
    reflexivity.
Defined.

(** C10: a notification whose value does not convert to a finite number
    leaves the wait exactly as it was, for any target and in any state: the
    promise is neither resolved nor rejected, the subscription stays, and the
    notifications that follow are handled as if it had not come.  When the
    conversion itself does not throw, the callback returns normally. *)
Theorem non_finite_ignored (w : waiter) (upTo : value) (rest : list input) :
  finite_value upTo = false ->
  step w (Update upTo) = w /\
  run w (Update upTo :: rest) = run w rest /\
  (forall n, asNumber upTo = Normal n -> snd (on_update w upTo) = Normal tt).
Proof.
  intros Hfin. unfold finite_value in Hfin.
  assert (Hstep : step w (Update upTo) = w).
  { simpl. unfold on_update. destruct (asNumber upTo) as [n|e]; [|reflexivity].
    now rewrite Hfin. }
  split; [exact Hstep|]. split.
  - now rewrite run_cons, Hstep.
  - intros n Hn. unfold on_update. rewrite Hn in *. now rewrite Hfin.
Qed.

Lemma non_finite_ignored_witness :
  step (step (start (Fin 7)) Established) (Update (VNumber NaN))
    = step (start (Fin 7)) Established.
Proof.
  apply (non_finite_ignored (step (start (Fin 7)) Established) (VNumber NaN) []).
  reflexivity.
Defined.

(** C4, as the specification has it: some input of a wait cancels it, that
    is, tears the subscription of a pending wait down and leaves the promise
    pending.  The code has no such input. *)
Lemma no_silent_cancellation :
  ~ exists (cancel : input) (w : waiter),
      reachable w /\ future w = Pending /\
      sub (step w cancel) = TornDown /\ future (step w cancel) = Pending.
Proof.
  intros (cancel & w & Hr & _ & Hsub & Hfut).
  pose proof (coherent_step w cancel (coherent_reachable w Hr)) as Hc.
  unfold coherent in Hc. rewrite Hsub in Hc. congruence.
Qed.

(** C4, amended: [waitForSecureUpTo] returns the promise alone.  In every
    state a wait can reach, the subscription is torn down only by a
    notification that satisfies the target, in the step that resolves the
    promise; a rejected wait never had a subscription. *)
Theorem teardown_only_on_resolve (w : waiter) (i : input) :
  reachable w ->
  (sub (step w i) = TornDown -> future (step w i) = Fulfilled) /\
  (sub w <> TornDown -> sub (step w i) = TornDown ->
     exists upTo, i = Update upTo /\ satisfies (targetBlock w) upTo = true) /\
  (forall e, future (step w i) = Rejected e -> sub (step w i) = NoSubscription).
Proof.
  intros Hr.
  pose proof (coherent_reachable w Hr) as Hw.
  pose proof (coherent_step w i Hw) as Hc.
  unfold coherent in Hc, Hw. repeat split.
  - intros Hs. now rewrite Hs in Hc.
  - intros Hlive Hs. clear Hc Hw Hr. destruct w as [target s f].
    destruct i as [|e|upTo]; simpl in *.
    + destruct s; simpl in Hs; congruence.
    + destruct s; simpl in Hs; congruence.
    + exists upTo. split; [reflexivity|].
      unfold on_update, satisfies in *. simpl in *.
      destruct (asNumber upTo) as [n|e]; [|simpl in Hs; congruence].
      destruct (isFinite n && num_ge n target); [reflexivity|].
      simpl in Hs. congruence.
  - intros e He. destruct (sub (step w i)); try congruence.
Qed.

Lemma teardown_only_on_resolve_witness :
  future (step (run (start (Fin 5)) [Established]) (Update (VNumber (Fin 7)))) = Fulfilled.
Proof.
  apply (teardown_only_on_resolve
           (run (start (Fin 5)) [Established]) (Update (VNumber (Fin 7)))).
  - exists (Fin 5), [Established]. reflexivity.
  - reflexivity.
Defined.

End WaiterFacts.

(** ** signAndSendSecure and the transfer script *)

Module TrackerFacts.
Import Js Waiter Tx Tracker Samples.

Lemma callbacks_app (es1 es2 : list effect) :
  callbacks (es1 ++ es2) = callbacks es1 ++ callbacks es2.
Proof.
  induction es1 as [|e es1 IH]; [reflexivity|].
  destruct e; simpl; now rewrite IH.
Qed.

Lemma filter_secure_ordinary (rs : list SubmittableResult) :
  filter is_secure (map as_secure rs) = [].
Proof. induction rs as [|r rs IH]; [reflexivity|exact IH]. Qed.


Lemma fan_out_callbacks (cb : option StatusCb) (r : ISecureResult) :
  callbacks (fan_out cb r) = match cb with Some _ => [r] | None => [] end.
Proof. now destruct cb. Qed.

(** Before [Finalized] the handler only passes the status on. *)
Lemma on_status_ordinary (api : Api) (cb : option StatusCb) (r : SubmittableResult) :
  isFinalized r = false ->
  fst (on_status api cb r) = fan_out cb (as_secure r).
Proof.
  unfold isFinalized, on_status, fan_out. intros Hnf.
  destruct (call_cb cb (as_secure r)) as [fan c]. simpl.
  destruct c as [[]|e]; [|reflexivity].
  destruct (status r) as [[]|]; try reflexivity. discriminate.
Qed.


Lemma run_ordinary (api : Api) (cb : option StatusCb) (pre : list SubmittableResult) :
  Forall (fun r => isFinalized r = false) pre ->
  signAndSendSecure api cb pre = flat_map (fun r => fan_out cb (as_secure r)) pre.
Proof.
  unfold signAndSendSecure. induction 1 as [|r pre Hr _ IH]; [reflexivity|].
  simpl. now rewrite IH, on_status_ordinary.
Qed.

Lemma callbacks_fan_out (cb : StatusCb) (rs : list SubmittableResult) :
  callbacks (flat_map (fun r => fan_out (Some cb) (as_secure r)) rs) = map as_secure rs.
Proof. induction rs as [|r rs IH]; [reflexivity|]. simpl. now rewrite IH. Qed.




(** The handler on the [Finalized] status of a successful extrinsic, once
    the header is there and the wait resolves. *)
Lemma on_status_secure (api : Api) (cb : StatusCb) (fin : SubmittableResult)
  (h : hash) (includedAt : number) :
  status fin = Some (Finalized h) ->
  failed fin = false ->
  cb (as_secure fin) = Normal tt ->
  getHeader api h = Normal includedAt ->
  waitForSecureUpTo (anchor api) includedAt = Fulfilled ->
  fst (on_status api (Some cb) fin) =
    [Callback (as_secure fin); GetHeader h; WaitForSecureUpTo includedAt;
     Callback (synthetic fin includedAt)].
Proof.
  intros Hst Hf Hcb Hh Hw. unfold on_status. simpl.
  now rewrite Hcb, Hst, Hf, Hh, Hw.
Qed.

(** C1: take a lifecycle that ends in [Finalized], with no failure marker
    among the events of the finalized result, a callback that returns, the
    header of the finalized block at hand and a wait that resolves.  Then
    the callback is invoked once per status, in order, and once more with the
    synthetic result: that invocation is the last one, the only one flagged
    [isSecureFinalized], and its [secureFinalizedAt] is the number read from
    the header of the finalized block. *)
Theorem secure_finalized_is_last (api : Api) (cb : StatusCb)
  (pre : list SubmittableResult) (fin : SubmittableResult)
  (h : hash) (includedAt : number) :
  Forall (fun r => isFinalized r = false) pre ->
  status fin = Some (Finalized h) ->
  failed fin = false ->
  (forall r, cb r = Normal tt) ->
  getHeader api h = Normal includedAt ->
  waitForSecureUpTo (anchor api) includedAt = Fulfilled ->
  let calls := callbacks (signAndSendSecure api (Some cb) (pre ++ [fin])) in
  calls = map as_secure (pre ++ [fin]) ++ [synthetic fin includedAt] /\
  last calls = Some (synthetic fin includedAt) /\
  filter is_secure calls = [synthetic fin includedAt] /\
  secureFinalizedAt (synthetic fin includedAt) = Some includedAt.
Proof.
  intros Hpre Hst Hf Hcb Hh Hw calls.
  assert (Hcalls : calls = map as_secure (pre ++ [fin]) ++ [synthetic fin includedAt]).
  { unfold calls, signAndSendSecure. rewrite flat_map_app.
    fold (signAndSendSecure api (Some cb) pre). rewrite (run_ordinary _ _ _ Hpre).
    rewrite callbacks_app, callbacks_fan_out. simpl flat_map.
    rewrite (on_status_secure api cb fin h includedAt Hst Hf (Hcb _) Hh Hw).
    simpl. rewrite map_app. simpl. now rewrite <- app_assoc. }
  rewrite Hcalls. repeat split.
  - apply last_snoc.
  - rewrite filter_app, filter_secure_ordinary. reflexivity.
Qed.

Lemma secure_finalized_is_last_witness :
  callbacks (signAndSendSecure scenario_B (Some (fun _ => Normal tt))
               ([ready; in_block] ++ [finalized_ok]))
  = map as_secure ([ready; in_block] ++ [finalized_ok])
      ++ [synthetic finalized_ok (Fin 100)].
Proof.
  apply (secure_finalized_is_last scenario_B (fun _ => Normal tt)
           [ready; in_block] finalized_ok 7%N (Fin 100)).
  - repeat constructor.
  - reflexivity.
  - reflexivity.
  - reflexivity.
  - reflexivity.
  - reflexivity.
Defined.

End TrackerFacts.

Module FailureFacts.
Import Js Waiter Tx Samples.

(** The two [failed] tests agree. *)
Lemma failed_agree (r : SubmittableResult) : Script.failed r = Tracker.failed r.
Proof. unfold Script.failed, Tracker.failed. now destruct (events r). Qed.


Lemma report_failure_no_wait (api : Script.Chain) (r : SubmittableResult) :
  existsb Script.is_secure_wait (fst (Script.report_failure api r)) = false.
Proof.
  unfold Script.report_failure.
  destruct (dispatchError r) as [[index error|text]|]; try reflexivity.
  now destruct (Script.findMetaError api index error).
Qed.




End FailureFacts.

(** ** installSignAndSendSecure *)

Module InstallFacts.
Import Js Install Samples.

(** An own property is found without looking at the prototype. *)
Lemma get_own (h : heap) (l : loc) (o : object) (k : string) (v : jsval) :
  h !! l = Some o -> props o !! k = Some v -> get h l k = v.
Proof. intros Hl Hk. unfold get. simpl. now rewrite Hl, Hk. Qed.

Lemma set_lookup (h h' : heap) (l : loc) (k : string) (v : jsval) :
  set h l k v = Some h' ->
  exists o, h !! l = Some o /\
            h' = <[l := {| props := <[k := v]> (props o); proto := proto o |}]> h.
Proof.
  unfold set. destruct (h !! l) as [o|]; [|discriminate].
  intros [= <-]. eauto.
Qed.

Lemma get_after_set (h h' : heap) (l : loc) (k : string) (v : jsval) :
  set h l k v = Some h' -> get h' l k = v.
Proof.
  intros (o & Ho & ->)%set_lookup.
  apply get_own with (o := {| props := <[k := v]> (props o); proto := proto o |}).
  - apply lookup_insert_eq.
  - apply lookup_insert_eq.
Qed.

(** Writing a property of the prototype leaves every prototype link alone. *)
Lemma proto_after_set (h h' : heap) (l tx : loc) (k : string) (v : jsval) (o : object) :
  set h l k v = Some h' -> h !! tx = Some o ->
  exists o', h' !! tx = Some o' /\ proto o' = proto o.
Proof.
  intros (ol & Hol & ->)%set_lookup Htx.
  destruct (decide (l = tx)) as [->|Hne].
  - rewrite lookup_insert_eq. rewrite Htx in Hol. injection Hol as ->. eauto.
  - rewrite lookup_insert_ne by assumption. eauto.
Qed.

(** When the prototype carries a truthy [signAndSendSecure], the call
    returns at once. *)
Lemma install_already (h : heap) (tx p : loc) (o : object) :
  h !! tx = Some o -> proto o = Some p ->
  truthy (get h p "signAndSendSecure") = true ->
  installSignAndSendSecure h tx = Normal h.
Proof.
  intros Htx Hp Ht. unfold installSignAndSendSecure. now rewrite Htx, Hp, Ht.
Qed.

(** After a successful call the prototype of the instance carries the
    method. *)
Lemma install_carries (h h1 : heap) (tx : loc) :
  installSignAndSendSecure h tx = Normal h1 ->
  exists o p, h1 !! tx = Some o /\ proto o = Some p /\
              truthy (get h1 p "signAndSendSecure") = true.
Proof.
  unfold installSignAndSendSecure.
  destruct (h !! tx) as [o|] eqn:Htx; [|discriminate].
  destruct (proto o) as [p|] eqn:Hp; [|discriminate].
  destruct (truthy (get h p "signAndSendSecure")) eqn:Ht.
  - intros [= <-]. eauto.
  - destruct (set h p "signAndSendSecure" signAndSendSecure_fn) as [h'|] eqn:Hset;
      [|discriminate].
    intros [= <-].
    destruct (proto_after_set _ _ _ _ _ _ _ Hset Htx) as (o' & Ho' & Hpo').
    exists o', p. rewrite Hpo'. repeat split; trivial.
    now rewrite (get_after_set _ _ _ _ _ Hset).
Qed.

(** The prototype is shared: an instance installed through one extrinsic
    is installed for every other instance of the same prototype. *)
Lemma install_shared (h h1 : heap) (tx tx' : loc) (o o' : object) :
  installSignAndSendSecure h tx = Normal h1 ->
  h !! tx = Some o -> h !! tx' = Some o' -> proto o' = proto o ->
  installSignAndSendSecure h1 tx' = Normal h1.
Proof.
  intros Hi Htx Htx' Hsame. unfold installSignAndSendSecure in Hi.
  rewrite Htx in Hi.
  destruct (proto o) as [p|] eqn:Hp; [|discriminate].
  destruct (truthy (get h p "signAndSendSecure")) eqn:Ht.
  - injection Hi as <-. apply install_already with (p := p) (o := o'); congruence.
  - destruct (set h p "signAndSendSecure" signAndSendSecure_fn) as [h'|] eqn:Hset;
      [|discriminate].
    injection Hi as <-.
    destruct (proto_after_set _ _ _ _ _ _ _ Hset Htx') as (o2 & Ho2 & Hpo2).
    apply install_already with (p := p) (o := o2); [assumption|congruence|].
    now rewrite (get_after_set _ _ _ _ _ Hset).
Qed.

(** C9: once a call of [installSignAndSendSecure] has gone through, the
    prototype of the instance carries [signAndSendSecure], and a second call
    returns the store as it is: installing twice is installing once.  More
    generally a call on an instance whose prototype already carries the
    method changes nothing. *)
Theorem install_idempotent (h h1 : heap) (tx : loc) :
  installSignAndSendSecure h tx = Normal h1 ->
  installSignAndSendSecure h1 tx = Normal h1 /\
  cbind (installSignAndSendSecure h tx) (fun h' => installSignAndSendSecure h' tx)
    = installSignAndSendSecure h tx /\
  (forall o p, h !! tx = Some o -> proto o = Some p ->
     truthy (get h p "signAndSendSecure") = true -> h1 = h).
Proof.
  intros Hi.
  assert (Hsecond : installSignAndSendSecure h1 tx = Normal h1).
  { destruct (install_carries h h1 tx Hi) as (o & p & Ho & Hp & Ht).
    now apply install_already with (p := p) (o := o). }
  repeat split.
  - exact Hsecond.
  - rewrite Hi. exact Hsecond.
  - intros o p Htx Hp Ht.
    rewrite (install_already h tx p o Htx Hp Ht) in Hi. congruence.
Qed.

Lemma install_submittable :
  installSignAndSendSecure submittable 2%positive = Normal installed.
Proof. vm_compute. reflexivity. Qed.

Lemma install_idempotent_witness :
  installSignAndSendSecure installed 2%positive = Normal installed.
Proof.
  apply (install_idempotent submittable installed 2%positive).
  exact install_submittable.
Defined.

End InstallFacts.

(** ** The advancer loop *)

Module AdvancerFacts.
Import Js Tx Advancer Samples MoreSamples.
Local Open Scope js_scope.

Ltac unfold_loop :=
  unfold iteration, try_catch_finally, tick_body, promise_all, getFinalizedNumber,
    getSecureUpTo, sendSudoAdvance, sleep, emit, await, throw, hang, continue_,
    get_inFlight, set_inFlight, bind, ret.

Lemma iteration_idle (cfg : config) (env : tick_env) (s : flags) :
  inFlight s = false ->
  iteration cfg env s = iteration_cases cfg env s.
Proof.
  intros Hs. unfold iteration_cases, observed, idle, busy. unfold_loop.
  rewrite Hs.
  destruct (cbind (finalizedHead env) (header env)) as [finalized|e]; simpl;
    destruct (cbind (secureUpTo env) asNumber) as [currentUp|e']; simpl;
    try reflexivity.
  destruct (num_gt finalized currentUp); simpl; [|reflexivity].
  destruct (DRY_RUN cfg); simpl; [reflexivity|].
  destruct (sudo_promise env finalized); simpl; try reflexivity.
  destruct (cbind (secureUpTo_after env) asNumber); reflexivity.
Qed.

(** An iteration entered with [inFlight] on: the guard of the loop. *)
Lemma iteration_busy (cfg : config) (env : tick_env) (s : flags) :
  inFlight s = true ->
  iteration cfg env s =
    ([Sleep 200; Sleep (INTERVAL_SEC cfg * 1000)], idle s, Continue).
Proof. intros Hs. unfold idle. unfold_loop. now rewrite Hs. Qed.

(** An iteration ends at the loop head with [inFlight] off, or never ends;
    no exception leaves it. *)
Lemma iteration_outcome (cfg : config) (env : tick_env) (s : flags) :
  (exists t, iteration cfg env s = (t, idle s, Ret tt)) \/
  (exists t, iteration cfg env s = (t, idle s, Continue)) \/
  (exists t, iteration cfg env s = (t, busy s, Hang)).
Proof.
  destruct (inFlight s) eqn:Hs.
  - rewrite (iteration_busy _ _ _ Hs). eauto.
  - rewrite (iteration_idle _ _ _ Hs). unfold iteration_cases.
    destruct (observed env) as [[finalized currentUp]|e]; [|eauto].
    destruct (num_gt finalized currentUp); [|eauto].
    destruct (DRY_RUN cfg); [eauto|].
    destruct (sudo_promise env finalized); eauto.
    destruct (cbind (secureUpTo_after env) asNumber); eauto.
Qed.

Lemma main_loop_stopped (cfg : config) (envs : list tick_env) (s : flags) :
  stop s = true -> main_loop cfg envs s = ([], s, Exited).
Proof. intros Hs. destruct envs; simpl; now rewrite Hs. Qed.

Lemma main_loop_cons (cfg : config) (env : tick_env) (rest : list tick_env)
  (s : flags) (t : list action) (s1 : flags) (o : outcome unit) :
  stop s = false ->
  iteration cfg env s = (t, s1, o) ->
  o <> Hang -> (forall e, o <> Exc e) ->
  main_loop cfg (env :: rest) s =
    (t ++ trace_of (main_loop cfg rest s1),
     flags_of (main_loop cfg rest s1),
     status_of (main_loop cfg rest s1)).
Proof.
  intros Hs Hi Hh He. simpl. rewrite Hs, Hi.
  destruct (main_loop cfg rest s1) as [[t' s3] st].
  destruct o; try reflexivity; [now destruct (He e)|now destruct Hh].
Qed.

(** The loop head always finds [inFlight] off. *)
Lemma head_idle (cfg : config) (envs : list tick_env) (s : flags) :
  inFlight s = false ->
  status_of (main_loop cfg envs s) = Running ->
  inFlight (flags_of (main_loop cfg envs s)) = false.
Proof.
  revert s. induction envs as [|env rest IH]; intros s Hin Hrun.
  - simpl in *. now destruct (stop s).
  - destruct (stop s) eqn:Hs.
    { rewrite main_loop_stopped in Hrun by assumption. discriminate. }
    destruct (iteration_outcome cfg env s) as [[t Hi]|[[t Hi]|[t Hi]]].
    + rewrite (main_loop_cons _ _ _ _ _ _ _ Hs Hi) in * by congruence.
      apply IH; [reflexivity|exact Hrun].
    + rewrite (main_loop_cons _ _ _ _ _ _ _ Hs Hi) in * by congruence.
      apply IH; [reflexivity|exact Hrun].
    + simpl in Hrun. rewrite Hs, Hi in Hrun. discriminate.
Qed.

Lemma submitted_app (t1 t2 : list action) :
  submitted (t1 ++ t2) = submitted t1 ++ submitted t2.
Proof.
  induction t1 as [|a t1 IH]; [reflexivity|].
  destruct a; simpl; now rewrite IH.
Qed.

(** The promise of [sendSudoAdvance] settles only on a [Finalized] status. *)
Lemma sudo_statuses_settled (env : tick_env) (results : list SubmittableResult) :
  sudo_statuses env results <> Pending ->
  finalized_seen (Statuses results) = true.
Proof.
  induction results as [|r rest IH]; simpl; [congruence|].
  unfold sudo_on_status.
  destruct (status r) as [[]|]; simpl; auto.
Qed.

Lemma sudo_promise_settled (env : tick_env) (target : number) :
  sudo_promise env target <> Pending ->
  finalized_seen (sudo env target) = true \/
  exists e, sudo env target = SubmitThrows e.
Proof.
  unfold sudo_promise. destruct (sudo env target) as [e|results]; [eauto|].
  intros H. left. now apply sudo_statuses_settled with (env := env).
Qed.

(** C6: take any tick the loop gets to, with dry-run off, and let the two
    reads return [finalized] and [currentUp].  If [finalized > currentUp] the
    tick submits exactly one call, for [finalized], and goes on only once
    the promise of that call is settled, which takes a [Finalized] status
    of the call (or a submission that fails outright); as long as the call
    stays pending the tick does not complete.  Otherwise the tick reads,
    sleeps its interval and submits nothing. *)
Theorem tick_advances_once (cfg : config) (before : list tick_env) (env : tick_env)
  (finalized currentUp : number) :
  DRY_RUN cfg = false ->
  status_of (main_loop cfg before initial) = Running ->
  observed env = Normal (finalized, currentUp) ->
  let s := flags_of (main_loop cfg before initial) in
  let t := fst (fst (iteration cfg env s)) in
  let o := snd (iteration cfg env s) in
  (num_gt finalized currentUp = true ->
     submitted t = [finalized] /\
     (o = Hang <-> sudo_promise env finalized = Pending) /\
     (o <> Hang ->
        exists ok rest,
          t = [ReadFinalized; ReadSecureUpTo; Submit finalized; Settled ok] ++ rest /\
          submitted rest = [] /\
          (finalized_seen (sudo env finalized) = true \/
           exists e, sudo env finalized = SubmitThrows e))) /\
  (num_gt finalized currentUp = false ->
     t = [ReadFinalized; ReadSecureUpTo; Sleep (INTERVAL_SEC cfg * 1000)] /\
     submitted t = []).
Proof.
  intros Hdry Hrun Hobs s t o.
  assert (Hs : inFlight s = false) by (apply head_idle; [reflexivity|exact Hrun]).
  unfold t, o. rewrite (iteration_idle cfg env s Hs).
  unfold iteration_cases. rewrite Hobs, Hdry. split; intros Hneed; rewrite Hneed.
  - pose proof (sudo_promise_settled env finalized) as Hset.
    destruct (sudo_promise env finalized) as [| |e] eqn:Hp.
    + simpl. split; [reflexivity|]. split; [split; congruence|]. congruence.
    + destruct (cbind (secureUpTo_after env) asNumber); simpl;
        (split; [reflexivity|]; split; [split; congruence|]; intros _;
         eexists true, _; split; [reflexivity|]; split; [reflexivity|];
         apply Hset; congruence).
    + simpl. split; [reflexivity|]. split; [split; congruence|]. intros _.
      eexists false, _. split; [reflexivity|]. split; [reflexivity|].
      apply Hset; congruence.
  - simpl. split; reflexivity.
Qed.

Lemma tick_advances_once_witness :
  submitted (fst (fst (iteration live (chain_tick 11 10)
                         (flags_of (main_loop live (chain_ticks [10; 10] 10) initial)))))
  = [Fin 11].
Proof.
  apply (tick_advances_once live (chain_ticks [10; 10] 10) (chain_tick 11 10)
           (Fin 11) (Fin 10)); reflexivity.
Defined.

(** *** Scenario A *)

Lemma chain_tick_iteration (cfg : config) (sample watermark : Z) :
  DRY_RUN cfg = false ->
  iteration cfg (chain_tick sample watermark) initial =
    (if watermark <? sample
     then [ReadFinalized; ReadSecureUpTo; Submit (Fin sample); Settled true;
           ReadSecureUpTo; Sleep (INTERVAL_SEC cfg * 1000)]
     else [ReadFinalized; ReadSecureUpTo; Sleep (INTERVAL_SEC cfg * 1000)],
     initial, Ret tt).
Proof.
  intros Hdry. rewrite iteration_idle by reflexivity.
  unfold iteration_cases. simpl. rewrite Hdry.
  now destruct (watermark <? sample).
Qed.

Lemma chain_ticks_submitted (cfg : config) (samples : list Z) (watermark : Z) :
  DRY_RUN cfg = false ->
  submitted (trace_of (main_loop cfg (chain_ticks samples watermark) initial))
    = lagging samples watermark /\
  status_of (main_loop cfg (chain_ticks samples watermark) initial) = Running.
Proof.
  intros Hdry. revert watermark.
  induction samples as [|sample rest IH]; intros watermark; [split; reflexivity|].
  simpl chain_ticks.
  rewrite (main_loop_cons cfg _ _ initial _ _ _ eq_refl
             (chain_tick_iteration cfg sample watermark Hdry))
    by congruence.
  unfold trace_of at 1, status_of at 1. simpl fst. simpl snd.
  rewrite submitted_app. simpl lagging.
  destruct (watermark <? sample); simpl; split; try apply IH; f_equal; apply IH.
Qed.

(** C3, as the specification has it: over the samples [10,10,11,11,12] with
    the watermark at 10, one call is issued and it targets 12.  The loop
    issues two: the third tick sees 11 above 10 and calls for 11 at once, and
    the fifth calls for 12. *)
Lemma scenario_A_two_calls :
  submitted (trace_of (main_loop live (chain_ticks [10; 10; 11; 11; 12] 10) initial))
    = [Fin 11; Fin 12] /\
  submitted (trace_of (main_loop live (chain_ticks [10; 10; 11; 11; 12] 10) initial))
    <> [Fin 12] /\
  submitted (fst (fst (iteration live (chain_tick 11 10) initial))) = [Fin 11].
Proof. split; [reflexivity|split; [discriminate|reflexivity]]. Qed.

(** C3, amended: with dry-run off and every call accepted and recorded by
    the chain, the loop issues one call for each tick whose finalized sample
    is above the watermark of that moment, targeting that sample, and none
    for the other ticks; it does not wait for the height to settle.  Over
    [10,10,11,11,12] from watermark 10 these are two calls, for 11 and then
    for 12. *)
Theorem one_call_per_lagging_tick (cfg : config) (samples : list Z) (watermark : Z) :
  DRY_RUN cfg = false ->
  submitted (trace_of (main_loop cfg (chain_ticks samples watermark) initial))
    = lagging samples watermark /\
  submitted (trace_of (main_loop cfg (chain_ticks [10; 10; 11; 11; 12] 10) initial))
    = [Fin 11; Fin 12].
Proof.
  intros Hdry. split.
  - apply chain_ticks_submitted, Hdry.
  - now rewrite (proj1 (chain_ticks_submitted cfg [10; 10; 11; 11; 12] 10 Hdry)).
Qed.

Lemma one_call_per_lagging_tick_witness :
  submitted (trace_of (main_loop live (chain_ticks [10; 10; 11; 11; 12] 10) initial))
    = lagging [10; 10; 11; 11; 12] 10.
Proof.
  apply (one_call_per_lagging_tick live [10; 10; 11; 11; 12] 10). reflexivity.
Defined.

(** *** Single flight *)

Lemma sequenced_app (t1 t2 : list action) (busy : bool) :
  sequenced busy (t1 ++ t2) = sequenced busy t1 && sequenced (pending_after busy t1) t2.
Proof.
  revert busy. induction t1 as [|a t1 IH]; intros busy; [reflexivity|].
  destruct a; simpl; rewrite IH; destruct busy; reflexivity.
Qed.

Lemma pending_after_app (t1 t2 : list action) (busy : bool) :
  pending_after busy (t1 ++ t2) = pending_after (pending_after busy t1) t2.
Proof.
  revert busy. induction t1 as [|a t1 IH]; intros busy; [reflexivity|].
  destruct a; simpl; now rewrite IH.
Qed.

Lemma sequenced_outstanding (p : list action) (busy : bool) :
  sequenced busy p = true ->
  outstanding_from (count_of busy) p = count_of (pending_after busy p).
Proof.
  revert busy. induction p as [|a p IH]; intros busy Hseq; [reflexivity|].
  destruct a; simpl in *; apply andb_prop in Hseq as [Hb Hrest];
    destruct busy; try discriminate; simpl;
    first [exact (IH true Hrest) | exact (IH false Hrest)].
Qed.

Lemma sequenced_next (busy : bool) (a : action) (q : list action) :
  sequenced busy (a :: q) = true -> busy = true -> exists ok, a = Settled ok.
Proof. intros Hseq ->. destruct a; try discriminate. eauto. Qed.

Lemma iteration_sequenced (cfg : config) (env : tick_env) (s : flags) :
  let t := fst (fst (iteration cfg env s)) in
  let o := snd (iteration cfg env s) in
  sequenced false t = true /\
  pending_after false t = match o with Hang => true | _ => false end.
Proof.
  destruct (inFlight s) eqn:Hs.
  - rewrite (iteration_busy _ _ _ Hs). split; reflexivity.
  - rewrite (iteration_idle _ _ _ Hs). unfold iteration_cases.
    destruct (observed env) as [[finalized currentUp]|e]; [|split; reflexivity].
    destruct (num_gt finalized currentUp); [|split; reflexivity].
    destruct (DRY_RUN cfg); [split; reflexivity|].
    destruct (sudo_promise env finalized); try (split; reflexivity).
    destruct (cbind (secureUpTo_after env) asNumber); split; reflexivity.
Qed.

Lemma main_loop_sequenced (cfg : config) (envs : list tick_env) (s : flags) :
  sequenced false (trace_of (main_loop cfg envs s)) = true /\
  (pending_after false (trace_of (main_loop cfg envs s)) = true ->
   status_of (main_loop cfg envs s) = Stuck /\
   inFlight (flags_of (main_loop cfg envs s)) = true).
Proof.
  revert s. induction envs as [|env rest IH]; intros s.
  - simpl. destruct (stop s); split; simpl; congruence.
  - destruct (stop s) eqn:Hs.
    { rewrite main_loop_stopped by assumption. split; simpl; congruence. }
    pose proof (iteration_sequenced cfg env s) as [Hseq Hpend].
    destruct (iteration_outcome cfg env s) as [[t Hi]|[[t Hi]|[t Hi]]];
      rewrite Hi in Hseq, Hpend; simpl in Hseq, Hpend.
    + rewrite (main_loop_cons _ _ _ _ _ _ _ Hs Hi) by congruence.
      unfold trace_of at 1 3, status_of at 1, flags_of at 1. simpl fst; simpl snd.
      rewrite sequenced_app, pending_after_app, Hseq, Hpend. apply IH.
    + rewrite (main_loop_cons _ _ _ _ _ _ _ Hs Hi) by congruence.
      unfold trace_of at 1 3, status_of at 1, flags_of at 1. simpl fst; simpl snd.
      rewrite sequenced_app, pending_after_app, Hseq, Hpend. apply IH.
    + simpl. rewrite Hs, Hi. simpl. auto.
Qed.

(** C7: along every run of the loop, at every point of its trace at most one
    submitted call is unsettled; while one is, the loop does nothing but
    wait for its settlement, and [inFlight] is on.  A tick entered with
    [inFlight] on makes no read and submits nothing: it sleeps, clears the
    flag and leaves the next attempt to the next tick. *)
Theorem single_flight (cfg : config) (envs : list tick_env) (p q : list action) :
  trace_of (main_loop cfg envs initial) = p ++ q ->
  0 <= outstanding p <= 1 /\
  (outstanding p = 1 ->
     (exists ok q', q = Settled ok :: q') \/
     (q = [] /\ status_of (main_loop cfg envs initial) = Stuck /\
      inFlight (flags_of (main_loop cfg envs initial)) = true)) /\
  (forall env s, inFlight s = true ->
     iteration cfg env s =
       ([Sleep 200; Sleep (INTERVAL_SEC cfg * 1000)], idle s, Continue)).
Proof.
  intros Htrace.
  pose proof (main_loop_sequenced cfg envs initial) as [Hseq Hstuck].
  rewrite Htrace in Hseq, Hstuck. rewrite sequenced_app in Hseq.
  apply andb_prop in Hseq as [Hp Hq].
  pose proof (sequenced_outstanding p false Hp) as Hout.
  change (outstanding_from (count_of false) p) with (outstanding p) in Hout.
  split; [|split].
  - rewrite Hout. unfold count_of. destruct (pending_after false p); lia.
  - intros Hone. rewrite Hout in Hone.
    destruct (pending_after false p) eqn:Hpp; [|discriminate].
    destruct q as [|a q'].
    + right. rewrite app_nil_r in Hstuck. split; [reflexivity|]. now apply Hstuck.
    + left. destruct (sequenced_next true a q' Hq eq_refl) as [ok ->]. eauto.
  - intros env s. apply iteration_busy.
Qed.

Lemma single_flight_witness :
  0 <= outstanding [ReadFinalized; ReadSecureUpTo; Submit (Fin 11)] <= 1.
Proof.
  apply (single_flight live (chain_ticks [11; 12] 10)
           [ReadFinalized; ReadSecureUpTo; Submit (Fin 11)]
           [Settled true; ReadSecureUpTo; Sleep 6000;
            ReadFinalized; ReadSecureUpTo; Submit (Fin 12); Settled true;
            ReadSecureUpTo; Sleep 6000]).
  reflexivity.
Defined.

(** *** Errors *)














End AdvancerFacts.

(** ** More on waitForSecureUpTo *)

Module WaiterMore.
Import Js Waiter WaiterFacts.

Lemma run_app (w : waiter) (ins1 ins2 : list input) :
  run w (ins1 ++ ins2) = run (run w ins1) ins2.
Proof. unfold run. apply fold_left_app. Qed.

(** X1: what the promise of [waitForSecureUpTo] becomes is decided by the
    storage entry alone: it is fulfilled exactly when one of the delivered
    values is finite and at least the target, it stays pending exactly when
    the subscription is there and none is, and it is rejected with [e]
    exactly when the subscribe call throws [e]. *)
Theorem wait_outcome (anchor : source) (target : number) :
  (waitForSecureUpTo anchor target = Fulfilled <->
     exists updates, anchor = Delivers updates /\
                     existsb (satisfies target) updates = true) /\
  (waitForSecureUpTo anchor target = Pending <->
     exists updates, anchor = Delivers updates /\
                     existsb (satisfies target) updates = false) /\
  (forall e, waitForSecureUpTo anchor target = Rejected e <-> anchor = Rejects e).
Proof.
  destruct anchor as [e0|updates].
  - rewrite waitForSecureUpTo_rejects.
    split; [|split; [|intros e]]; split; intros H;
      try discriminate; try congruence;
      destruct H as (us & Hus & _); discriminate.
  - rewrite waitForSecureUpTo_delivers.
    destruct (existsb (satisfies target) updates) eqn:Hex;
      (split; [|split; [|intros e]]); split; intros H;
      try discriminate; try (exists updates; now split);
      destruct H as (us & Hus & Hsat); congruence.
Qed.

Lemma step_inert (w : waiter) (i : input) :
  coherent w -> future w <> Pending -> step w i = w.
Proof.
  destruct w as [target s f]. unfold coherent. simpl. intros Hc Hf.
  destruct s; try congruence.
  - subst f. destruct i as [|e|upTo]; simpl; try reflexivity.
    unfold on_update. simpl. destruct (asNumber upTo) as [n|e]; [|reflexivity].
    now destruct (isFinite n && num_ge n target).
  - destruct i as [|e|upTo]; simpl; try reflexivity.
    unfold on_update. simpl. destruct (asNumber upTo) as [n|e]; [|reflexivity].
    now destruct (isFinite n && num_ge n target).
Qed.

(** X2: once the promise is resolved or rejected the wait is inert: no later
    notification, however large, and no late answer of the subscribe call
    changes the promise or the subscription. *)
Theorem settled_wait_is_inert (w : waiter) (ins : list input) :
  reachable w -> future w <> Pending -> run w ins = w.
Proof.
  intros Hr Hf. pose proof (coherent_reachable w Hr) as Hc.
  induction ins as [|i ins IH]; [reflexivity|].
  rewrite run_cons, (step_inert w i Hc Hf). exact IH.
Qed.

Lemma settled_wait_is_inert_witness :
  run (run (start (Fin 5)) [Established; Update (VNumber (Fin 7))])
      [Update (VNumber (Fin 9)); SubscribeFailed ConnectionError]
  = run (start (Fin 5)) [Established; Update (VNumber (Fin 7))].
Proof.
  apply (settled_wait_is_inert
           (run (start (Fin 5)) [Established; Update (VNumber (Fin 7))])
           [Update (VNumber (Fin 9)); SubscribeFailed ConnectionError]).
  - exists (Fin 5), [Established; Update (VNumber (Fin 7))]. reflexivity.
  - discriminate.
Defined.

Lemma early_update (target : number) (upTo : value) :
  step (start target) (Update upTo) = start target.
Proof.
  simpl. unfold on_update. simpl. destruct (asNumber upTo) as [n|e]; [|reflexivity].
  now destruct (isFinite n && num_ge n target).
Qed.

Lemma early_updates (target : number) (early : list value) :
  run (start target) (map Update early) = start target.
Proof.
  induction early as [|u early IH]; [reflexivity|].
  simpl map. now rewrite run_cons, early_update.
Qed.

(** X3: values delivered before the subscribe call has returned its handle
    are lost, whatever they are: the wait is as fresh as before, and whether
    it resolves depends only on the values delivered afterwards. *)
Theorem early_updates_are_lost (target : number) (early later : list value) :
  run (start target) (map Update early) = start target /\
  future (run (start target) (map Update early ++ Established :: map Update later))
    = if existsb (satisfies target) later then Fulfilled else Pending.
Proof.
  split; [apply early_updates|].
  rewrite run_app, early_updates.
  change (future (run (start target) (Established :: map Update later)))
    with (waitForSecureUpTo (Delivers later) target).
  apply waitForSecureUpTo_delivers.
Qed.

Lemma never_satisfied (target : number) (updates : list value) :
  (forall z, num_ge (Fin z) target = false) ->
  existsb (satisfies target) updates = false.
Proof.
  intros Hno. induction updates as [|u us IH]; [reflexivity|].
  simpl. rewrite IH, orb_false_r. unfold satisfies.
  destruct (asNumber u) as [[z| | |]|e]; try reflexivity.
  apply Hno.
Qed.

(** X4: a target that is [NaN] (a watch-only target that is not a number)
    or [+Infinity] is never reached: whatever the subscription delivers, the
    promise stays pending. *)
Theorem unreachable_target_never_resolves (target : number) (updates : list value) :
  target = NaN \/ target = PosInf ->
  waitForSecureUpTo (Delivers updates) target = Pending.
Proof.
  intros Ht. rewrite waitForSecureUpTo_delivers, never_satisfied; [reflexivity|].
  intros z. destruct Ht as [->| ->]; reflexivity.
Qed.

Lemma unreachable_target_never_resolves_witness :
  waitForSecureUpTo (Delivers [VNumber (Fin 1000000); VCodec (Normal PosInf)]) NaN
  = Pending.
Proof.
  apply (unreachable_target_never_resolves NaN
           [VNumber (Fin 1000000); VCodec (Normal PosInf)]).
  left. reflexivity.
Defined.

Lemma satisfies_earlier (T T' : number) (upTo : value) :
  num_ge T T' = true -> satisfies T upTo = true -> satisfies T' upTo = true.
Proof.
  unfold satisfies. intros Hle. destruct (asNumber upTo) as [[z| | |]|e]; simpl; auto.
  destruct T as [t| | |], T' as [t'| | |]; simpl in *; try congruence.
  rewrite !Z.leb_le in *. lia.
Qed.

(** X5: waits are monotone in the target: over the same subscription, when
    the wait for a block resolves, so does the wait for any block that is not
    later. *)
Theorem earlier_target_resolves (anchor : source) (T T' : number) :
  num_ge T T' = true ->
  waitForSecureUpTo anchor T = Fulfilled ->
  waitForSecureUpTo anchor T' = Fulfilled.
Proof.
  intros Hle HT. destruct anchor as [e|updates]; [discriminate|].
  rewrite waitForSecureUpTo_delivers in *.
  destruct (existsb (satisfies T) updates) eqn:Hex; [|discriminate].
  apply existsb_exists in Hex as (u & Hin & Hu).
  assert (Hex' : existsb (satisfies T') updates = true).
  { apply existsb_exists. exists u. split; [exact Hin|].
    now apply satisfies_earlier with (T := T). }
  now rewrite Hex'.
Qed.

Lemma earlier_target_resolves_witness :
  waitForSecureUpTo (Delivers [VCodec (Normal (Fin 99)); VCodec (Normal (Fin 105))])
    (Fin 100) = Fulfilled.
Proof.
  apply (earlier_target_resolves
           (Delivers [VCodec (Normal (Fin 99)); VCodec (Normal (Fin 105))])
           (Fin 103) (Fin 100)); reflexivity.
Defined.

End WaiterMore.

(** ** More on signAndSendSecure *)

Module TrackerMore.
Import Js Waiter Tx Tracker TrackerViews TrackerFacts Samples.

Lemma In_callbacks (es : list effect) (r : ISecureResult) :
  In r (callbacks es) <-> In (Callback r) es.
Proof.
  induction es as [|e es IH]; [reflexivity|].
  destruct e as [r'| |]; simpl; rewrite IH; split; intros H;
    try (destruct H as [H|H]; [left; congruence|now right]);
    try (now right); try (destruct H as [H|H]; [discriminate|exact H]).
Qed.

(** The callback invocations of one run of the handler: the fan-out, and
    after a wait that resolved the synthetic result. *)
Lemma on_status_callbacks (api : Api) (cb : option StatusCb) (result : SubmittableResult) :
  callbacks (fst (on_status api cb result)) = callbacks (fan_out cb (as_secure result)) \/
  exists h includedAt,
    status result = Some (Finalized h) /\ failed result = false /\
    getHeader api h = Normal includedAt /\
    waitForSecureUpTo (anchor api) includedAt = Fulfilled /\
    callbacks (fst (on_status api cb result)) =
      callbacks (fan_out cb (as_secure result)) ++
      callbacks (fan_out cb (synthetic result includedAt)).
Proof.
  unfold on_status, fan_out.
  destruct (call_cb cb (as_secure result)) as [fan c] eqn:Hfan. simpl.
  destruct c as [[]|e]; [|now left].
  destruct (status result) as [[]|] eqn:Hst; try now left.
  destruct (failed result) eqn:Hf; [now left|].
  destruct (getHeader api h) as [includedAt|e] eqn:Hh.
  - destruct (waitForSecureUpTo (anchor api) includedAt) eqn:Hw.
    + left. simpl. rewrite callbacks_app. simpl. now rewrite app_nil_r.
    + right. exists h, includedAt. repeat split; trivial.
      destruct (call_cb cb (synthetic result includedAt)) as [last c'].
      simpl. rewrite !callbacks_app. simpl. now rewrite app_nil_r.
    + left. simpl. rewrite callbacks_app. simpl. now rewrite app_nil_r.
  - left. simpl. rewrite callbacks_app. simpl. now rewrite app_nil_r.
Qed.

(** X6: every status [signAndSend] delivers reaches the callback once, in
    order and as it came, whatever the header lookup, the wait or the callback
    itself do: the invocations that are not flagged [isSecureFinalized] are
    exactly the statuses. *)
Theorem every_status_reaches_callback (api : Api) (cb : StatusCb)
  (statuses : list SubmittableResult) :
  List.filter is_ordinary (callbacks (signAndSendSecure api (Some cb) statuses))
    = map as_secure statuses.
Proof.
  unfold signAndSendSecure.
  induction statuses as [|r rest IH]; [reflexivity|].
  simpl flat_map. rewrite callbacks_app, List.filter_app, IH. simpl map.
  destruct (on_status_callbacks api (Some cb) r) as [->|(h & n & _ & _ & _ & _ & ->)];
    reflexivity.
Qed.

(** X7: an invocation flagged [isSecureFinalized] is made only for a
    [Finalized] status without failure marker, after the header was read and
    the wait for its number resolved; it carries that status and that
    number. *)
Theorem secure_only_after_wait (api : Api) (cb : option StatusCb)
  (result : SubmittableResult) (r : ISecureResult) :
  In (Callback r) (fst (on_status api cb result)) ->
  is_secure r = true ->
  exists h includedAt,
    status result = Some (Finalized h) /\ failed result = false /\
    getHeader api h = Normal includedAt /\
    waitForSecureUpTo (anchor api) includedAt = Fulfilled /\
    r = synthetic result includedAt.
Proof.
  intros Hin Hsec. apply In_callbacks in Hin.
  assert (Hfan : forall r0, In r (callbacks (fan_out cb r0)) -> r = r0).
  { intros r0. rewrite fan_out_callbacks. destruct cb; simpl; intuition congruence. }
  destruct (on_status_callbacks api cb result)
    as [Heq|(h & n & Hst & Hf & Hh & Hw & Heq)]; rewrite Heq in Hin.
  - apply Hfan in Hin. subst r. discriminate.
  - apply in_app_or in Hin as [Hin|Hin]; apply Hfan in Hin; subst r.
    + discriminate.
    + exists h, n. repeat split; trivial.
Qed.

Lemma secure_only_after_wait_witness :
  exists h includedAt,
    status finalized_ok = Some (Finalized h) /\ failed finalized_ok = false /\
    getHeader scenario_B h = Normal includedAt /\
    waitForSecureUpTo (anchor scenario_B) includedAt = Fulfilled /\
    synthetic finalized_ok (Fin 100) = synthetic finalized_ok includedAt.
Proof.
  apply (secure_only_after_wait scenario_B (Some (fun _ => Normal tt)) finalized_ok
           (synthetic finalized_ok (Fin 100))).
  - simpl. auto.
  - reflexivity.
Defined.

(** X8: why the promise of the handler is not fulfilled.  It stays pending
    exactly when the wait does; and it is rejected with [e] only when the
    callback threw [e], or the header lookup of the finalized block threw
    [e], or the wait was rejected with [e]. *)
Theorem handler_outcome (api : Api) (cb : option StatusCb) (result : SubmittableResult) :
  (snd (on_status api cb result) = Pending <->
     snd (call_cb cb (as_secure result)) = Normal tt /\
     exists h includedAt,
       status result = Some (Finalized h) /\ failed result = false /\
       getHeader api h = Normal includedAt /\
       waitForSecureUpTo (anchor api) includedAt = Pending) /\
  (forall e, snd (on_status api cb result) = Rejected e ->
     snd (call_cb cb (as_secure result)) = Throw e \/
     exists h, status result = Some (Finalized h) /\ failed result = false /\
       (getHeader api h = Throw e \/
        exists includedAt, getHeader api h = Normal includedAt /\
          (waitForSecureUpTo (anchor api) includedAt = Rejected e \/
           snd (call_cb cb (synthetic result includedAt)) = Throw e))).
Proof.
  unfold on_status.
  destruct (call_cb cb (as_secure result)) as [fan c]. simpl.
  destruct c as [[]|e0].
  2:{ split; [split; [discriminate|intros [H _]; discriminate]|].
      intros e [= <-]. now left. }
  destruct (status result) as [[]|] eqn:Hst;
    try (split; [split; [discriminate|intros (_ & h' & n & H & _); discriminate]
                |intros e; discriminate]).
  destruct (failed result) eqn:Hf.
  { split; [split; [discriminate|intros (_ & h' & n & _ & H & _); discriminate]
           |intros e; discriminate]. }
  destruct (getHeader api h) as [includedAt|e0] eqn:Hh.
  2:{ split.
      - split; [discriminate|].
        intros (_ & h' & n & [= <-] & _ & H & _). congruence.
      - intros e [= <-]. right. exists h. auto. }
  destruct (waitForSecureUpTo (anchor api) includedAt) eqn:Hw.
  - split.
    + split; [intros _|reflexivity]. split; [reflexivity|].
      exists h, includedAt. auto.
    + intros e; discriminate.
  - destruct (call_cb cb (synthetic result includedAt)) as [last c'] eqn:Hlast.
    simpl. split.
    + split.
      * destruct c'; discriminate.
      * intros (_ & h' & n & [= <-] & _ & Hh' & Hw'). congruence.
    + intros e He. destruct c' as [[]|e1]; [discriminate|].
      injection He as <-. right. exists h. repeat split; trivial.
      right. exists includedAt. split; [exact Hh|]. right. now rewrite Hlast.
  - split.
    + split; [discriminate|].
      intros (_ & h' & n & [= <-] & _ & Hh' & Hw'). congruence.
    + intros e0 [= <-]. right. exists h. repeat split; trivial.
      right. exists includedAt. auto.
Qed.

Lemma chain_effects_app (es1 es2 : list effect) :
  chain_effects (es1 ++ es2) = chain_effects es1 ++ chain_effects es2.
Proof.
  induction es1 as [|e es1 IH]; [reflexivity|].
  destruct e; simpl; now rewrite IH.
Qed.

Lemma on_status_without_callback (api : Api) (cb : StatusCb) (result : SubmittableResult) :
  (forall r, cb r = Normal tt) ->
  chain_effects (fst (on_status api (Some cb) result)) = fst (on_status api None result) /\
  snd (on_status api (Some cb) result) = snd (on_status api None result).
Proof.
  intros Hcb. unfold on_status. simpl. rewrite !Hcb.
  destruct (status result) as [[]|]; try (split; reflexivity).
  destruct (failed result); [split; reflexivity|].
  destruct (getHeader api h) as [includedAt|e]; [|split; reflexivity].
  destruct (waitForSecureUpTo (anchor api) includedAt); simpl; rewrite ?Hcb;
    split; reflexivity.
Qed.

(** X9: the callback only observes.  With a callback that returns, the
    header lookups and waits of a run are those of the run without callback,
    which invokes nothing; leaving [cb] out does not skip the wait. *)
Theorem callback_only_observes (api : Api) (cb : StatusCb)
  (statuses : list SubmittableResult) :
  (forall r, cb r = Normal tt) ->
  chain_effects (signAndSendSecure api (Some cb) statuses)
    = signAndSendSecure api None statuses /\
  callbacks (signAndSendSecure api None statuses) = [].
Proof.
  intros Hcb. unfold signAndSendSecure. split.
  - induction statuses as [|r rest IH]; [reflexivity|].
    simpl flat_map. rewrite chain_effects_app, IH.
    now rewrite (proj1 (on_status_without_callback api cb r Hcb)).
  - induction statuses as [|r rest IH]; [reflexivity|].
    simpl flat_map. rewrite callbacks_app, IH, app_nil_r.
    destruct (on_status_callbacks api None r) as [->|(h & n & _ & _ & _ & _ & ->)];
      reflexivity.
Qed.

Lemma callback_only_observes_witness :
  chain_effects (signAndSendSecure scenario_B (Some (fun _ => Normal tt))
                   [ready; in_block; finalized_ok])
  = signAndSendSecure scenario_B None [ready; in_block; finalized_ok].
Proof.
  apply (callback_only_observes scenario_B (fun _ => Normal tt)
           [ready; in_block; finalized_ok]).
  reflexivity.
Defined.

(** Every invocation is an ordinary status, or the synthetic result of a
    status that is [Finalized]. *)
Lemma callbacks_shape (api : Api) (cb : option StatusCb)
  (statuses : list SubmittableResult) :
  Forall (fun res =>
            (exists r, res = as_secure r) \/
            (exists r h n, res = synthetic r n /\ status r = Some (Finalized h)))
         (callbacks (signAndSendSecure api cb statuses)).
Proof.
  unfold signAndSendSecure.
  induction statuses as [|r rest IH]; [constructor|].
  simpl flat_map. rewrite callbacks_app. apply Forall_app. split; [|exact IH].
  destruct (on_status_callbacks api cb r) as [->|(h & n & Hst & _ & _ & _ & ->)].
  - rewrite fan_out_callbacks. destruct cb; [|constructor].
    constructor; [|constructor]. left. eauto.
  - rewrite !fan_out_callbacks. destruct cb; [|constructor].
    constructor; [left; eauto|]. constructor; [|constructor].
    right. exists r, h, n. auto.
Qed.

(** X10: with the callback of the README's example the line for the secure
    stage is never printed.  The synthetic result is a copy of the
    [Finalized] result, so the example takes its [isFinalized] branch again
    and never reaches the test of [isSecureFinalized]. *)
Theorem usage_never_prints_secure (api : Api) (cb : option StatusCb)
  (statuses : list SubmittableResult) :
  Forall (fun res =>
            (forall n, Readme.usage_cb res <> Some (Readme.PSecureFinalized n)) /\
            (is_secure res = true -> Readme.usage_cb res = Some Readme.PFinalized))
         (callbacks (signAndSendSecure api cb statuses)).
Proof.
  eapply Forall_impl; [apply callbacks_shape|].
  intros res [(r & ->)|(r & h & n & -> & Hst)]; unfold Readme.usage_cb; simpl.
  - split; [|discriminate].
    intros n. destruct (status r) as [[]|]; discriminate.
  - rewrite Hst. split; [discriminate|reflexivity].
Qed.

End TrackerMore.

(** ** More on the transfer script *)

Module ScriptMore.
Import Js Waiter Tx Script Samples.

(** X11: the exit code of the status callback.  It exits with 0 exactly
    when the status is [Finalized] without failure marker, the header was
    read and the wait for its number resolved; it exits with 1 only for a
    [Finalized] status with the failure marker; it exits with no other
    code. *)
Theorem exit_codes (api : Chain) (r : SubmittableResult) :
  (snd (on_transfer_status api r) = ProcessExit 0 <->
     exists h n, status r = Some (Finalized h) /\ failed r = false /\
                 getHeader api h = Normal n /\
                 waitForSecureUpTo (secureUpTo api) n = Fulfilled) /\
  (snd (on_transfer_status api r) = ProcessExit 1 ->
     exists h, status r = Some (Finalized h) /\ failed r = true) /\
  (forall code, snd (on_transfer_status api r) = ProcessExit code ->
     code = 0 \/ code = 1).
Proof.
  unfold on_transfer_status.
  destruct (status r) as [[]|] eqn:Hst;
    try (split; [split; [discriminate|intros (h' & n & H & _); discriminate]
                |split; [discriminate|intros code; discriminate]]).
  destruct (failed r) eqn:Hf.
  - assert (Hrep : snd (report_failure api r) = ProcessExit 1 \/
                   exists e, snd (report_failure api r) = Threw e).
    { unfold report_failure.
      destruct (dispatchError r) as [[index error|text]|]; auto.
      destruct (findMetaError api index error); simpl; eauto. }
    destruct (report_failure api r) as [es fin]. simpl in *.
    split; [split|split].
    + intros ->. destruct Hrep as [H|[e H]]; discriminate.
    + intros (h' & n & _ & H & _). discriminate.
    + intros _. eauto.
    + intros code ->. destruct Hrep as [[= <-]|[e H]]; [auto|discriminate].
  - destruct (getHeader api h) as [n|e] eqn:Hh.
    + destruct (waitForSecureUpTo (secureUpTo api) n) eqn:Hw; simpl;
        (split; [split|split]);
        try discriminate; try (intros code [= <-]; auto);
        try (intros (h' & n' & [= <-] & _ & H1 & H2); congruence).
      intros _. exists h, n. auto.
    + simpl. split; [split|split]; try discriminate.
      intros (h' & n' & [= <-] & _ & H1 & H2). congruence.
Qed.

(** X12: the destination of the transfer is never missing.  An unset or
    empty [TO] falls back to the built-in address, so [main] cannot take its
    exit for a missing [TO], and a transfer it submits always names a
    non-empty destination. *)
Theorem destination_never_missing (Number : string -> number)
  (env : Transfer.environment) (api : Transfer.surface) :
  Transfer.startup Number env api <> Transfer.ExitToRequired /\
  Transfer.TO env <> EmptyString /\
  (Transfer.unset_or_empty (Transfer.env_TO env) = true -> Transfer.TO env = Transfer.Bob) /\
  (forall keepAlive to amount,
     Transfer.startup Number env api = Transfer.Send keepAlive to amount ->
     to = Transfer.TO env /\ amount = Transfer.AMOUNT env).
Proof.
  assert (HTO : Transfer.TO env <> EmptyString).
  { unfold Transfer.TO, Transfer.or_default.
    destruct (Transfer.env_TO env) as [[|c rest]|]; discriminate. }
  split; [|split; [exact HTO|split]].
  - unfold Transfer.startup.
    destruct (negb (Transfer.has_palletQuery api) || negb (Transfer.has_secureUpTo api));
      [discriminate|].
    destruct (Transfer.WATCH_ONLY_TARGET_BLOCK Number env); [discriminate|].
    destruct (Transfer.TO env) eqn:HT; [congruence|].
    destruct (Transfer.has_transferKeepAlive api); [discriminate|].
    destruct (Transfer.has_transfer api); discriminate.
  - unfold Transfer.TO, Transfer.or_default, Transfer.unset_or_empty.
    destruct (Transfer.env_TO env) as [[|c rest]|]; try reflexivity. discriminate.
  - intros keepAlive to amount. unfold Transfer.startup.
    destruct (negb (Transfer.has_palletQuery api) || negb (Transfer.has_secureUpTo api));
      [discriminate|].
    destruct (Transfer.WATCH_ONLY_TARGET_BLOCK Number env); [discriminate|].
    destruct (Transfer.TO env) eqn:HT; [discriminate|].
    destruct (Transfer.has_transferKeepAlive api); [intros [= _ <- <-]; auto|].
    destruct (Transfer.has_transfer api); [intros [= _ <- <-]; auto|discriminate].
Qed.

Lemma library_waits_app (es1 es2 : list Tracker.effect) :
  TrackerViews.library_waits (es1 ++ es2) =
  TrackerViews.library_waits es1 ++ TrackerViews.library_waits es2.
Proof.
  induction es1 as [|e es1 IH]; [reflexivity|].
  destruct e; simpl; now rewrite IH.
Qed.

Lemma fan_out_waits (cb : option Tracker.StatusCb) (r : Tracker.ISecureResult) :
  TrackerViews.library_waits (fst (Tracker.call_cb cb r)) = [].
Proof. now destruct cb. Qed.

(** X22: the script and the library start the same waits.  Against the
    same node, and with a callback that returns, the status callback of the
    script and the handler of [signAndSendSecure] wait on the same status for
    the same block number, or both do not wait. *)
Theorem script_and_library_wait_alike (api : Tracker.Api) (sapi : Chain)
  (cb : option Tracker.StatusCb) (r : SubmittableResult) :
  (forall h, getHeader sapi h = Tracker.getHeader api h) ->
  secureUpTo sapi = Tracker.anchor api ->
  snd (Tracker.call_cb cb (Tracker.as_secure r)) = Normal tt ->
  TrackerViews.script_waits (fst (on_transfer_status sapi r)) =
  TrackerViews.library_waits (fst (Tracker.on_status api cb r)).
Proof.
  intros Hheader Hanchor Hcb.
  unfold on_transfer_status, Tracker.on_status.
  pose proof (fan_out_waits cb (Tracker.as_secure r)) as Hfan.
  destruct (Tracker.call_cb cb (Tracker.as_secure r)) as [fan c].
  simpl in Hcb, Hfan. subst c.
  destruct (status r) as [[]|]; simpl; try (now rewrite Hfan).
  rewrite (FailureFacts.failed_agree r).
  destruct (Tracker.failed r).
  - simpl. rewrite Hfan.
    pose proof (FailureFacts.report_failure_no_wait sapi r) as Hno.
    destruct (report_failure sapi r) as [es fin]. simpl in *.
    clear - Hno. induction es as [|e es IH]; [reflexivity|].
    destruct e; simpl in *; try discriminate; auto.
  - rewrite Hheader, Hanchor.
    destruct (Tracker.getHeader api h) as [n|e]; simpl.
    + destruct (waitForSecureUpTo (Tracker.anchor api) n); simpl.
      * now rewrite library_waits_app, Hfan.
      * destruct (Tracker.call_cb cb (Tracker.synthetic r n)) as [last c'] eqn:Hlast.
        simpl. rewrite !library_waits_app, Hfan. simpl.
        pose proof (fan_out_waits cb (Tracker.synthetic r n)) as Hl.
        rewrite Hlast in Hl. simpl in Hl. now rewrite Hl.
      * now rewrite library_waits_app, Hfan.
    + now rewrite library_waits_app, Hfan.
Qed.

Lemma script_and_library_wait_alike_witness :
  TrackerViews.script_waits (fst (on_transfer_status script_api finalized_ok)) =
  TrackerViews.library_waits
    (fst (Tracker.on_status lib_api (Some (fun _ => Normal tt)) finalized_ok)).
Proof.
  apply (script_and_library_wait_alike lib_api script_api
           (Some (fun _ => Normal tt)) finalized_ok); reflexivity.
Defined.

End ScriptMore.

(** ** More on the advancer loop *)

Module AdvancerMore.
Import Js Tx Advancer AdvancerFacts Samples MoreSamples.

(** One step of the loop: the iteration never ends, or it ends at the loop
    head and the loop goes on from there. *)
Lemma main_loop_step (cfg : config) (env : tick_env) (rest : list tick_env) (s : flags) :
  stop s = false ->
  (exists t, iteration cfg env s = (t, busy s, Hang) /\
             main_loop cfg (env :: rest) s = (t, busy s, Stuck)) \/
  (exists t o, iteration cfg env s = (t, idle s, o) /\ o <> Hang /\
               main_loop cfg (env :: rest) s =
                 (t ++ trace_of (main_loop cfg rest (idle s)),
                  flags_of (main_loop cfg rest (idle s)),
                  status_of (main_loop cfg rest (idle s)))).
Proof.
  intros Hs.
  destruct (iteration_outcome cfg env s) as [[t Hi]|[[t Hi]|[t Hi]]].
  - right. exists t, (Ret tt). split; [exact Hi|]. split; [discriminate|].
    apply (main_loop_cons _ _ _ _ _ _ _ Hs Hi); congruence.
  - right. exists t, Continue. split; [exact Hi|]. split; [discriminate|].
    apply (main_loop_cons _ _ _ _ _ _ _ Hs Hi); congruence.
  - left. exists t. split; [exact Hi|]. simpl. now rewrite Hs, Hi.
Qed.

Lemma observed_reads (env : tick_env) (finalized currentUp : number) :
  observed env = Normal (finalized, currentUp) ->
  cbind (finalizedHead env) (header env) = Normal finalized /\
  cbind (secureUpTo env) asNumber = Normal currentUp.
Proof.
  unfold observed.
  destruct (cbind (finalizedHead env) (header env));
    destruct (cbind (secureUpTo env) asNumber); intros [=]; subst; auto.
Qed.

(** What one iteration submits: nothing, or one call for the finalized
    height it read, which is above the watermark it read. *)
Lemma iteration_submitted (cfg : config) (env : tick_env) (s : flags) :
  submitted (fst (fst (iteration cfg env s))) = [] \/
  exists finalized currentUp,
    observed env = Normal (finalized, currentUp) /\
    num_gt finalized currentUp = true /\ DRY_RUN cfg = false /\
    submitted (fst (fst (iteration cfg env s))) = [finalized].
Proof.
  destruct (inFlight s) eqn:Hs.
  - rewrite (iteration_busy _ _ _ Hs). now left.
  - rewrite (iteration_idle _ _ _ Hs). unfold iteration_cases.
    destruct (observed env) as [[finalized currentUp]|e] eqn:Hobs; [|now left].
    destruct (num_gt finalized currentUp) eqn:Hneed; [|now left].
    destruct (DRY_RUN cfg) eqn:Hdry; [now left|].
    right. exists finalized, currentUp. repeat split; trivial.
    destruct (sudo_promise env finalized); try reflexivity.
    destruct (cbind (secureUpTo_after env) asNumber); reflexivity.
Qed.

Lemma iteration_dry (cfg : config) (env : tick_env) (s : flags) :
  DRY_RUN cfg = true ->
  submitted (fst (fst (iteration cfg env s))) = [] /\
  snd (iteration cfg env s) <> Hang.
Proof.
  intros Hdry. destruct (inFlight s) eqn:Hs.
  - rewrite (iteration_busy _ _ _ Hs). split; [reflexivity|discriminate].
  - rewrite (iteration_idle _ _ _ Hs). unfold iteration_cases. rewrite Hdry.
    destruct (observed env) as [[finalized currentUp]|e];
      [|split; [reflexivity|discriminate]].
    destruct (num_gt finalized currentUp); split; try reflexivity; discriminate.
Qed.

(** X13: in dry-run mode no call is ever submitted, whatever the lag and
    however long the loop runs, and the loop never gets stuck in a tick. *)
Theorem dry_run_never_submits (cfg : config) (envs : list tick_env) (s : flags) :
  DRY_RUN cfg = true ->
  submitted (trace_of (main_loop cfg envs s)) = [] /\
  status_of (main_loop cfg envs s) <> Stuck.
Proof.
  intros Hdry. revert s. induction envs as [|env rest IH]; intros s.
  - simpl. destruct (stop s); split; simpl; congruence.
  - destruct (stop s) eqn:Hs.
    { rewrite main_loop_stopped by assumption. split; simpl; congruence. }
    pose proof (iteration_dry cfg env s Hdry) as [Hsub Hhang].
    destruct (main_loop_step cfg env rest s Hs)
      as [(t & Hi & _)|(t & o & Hi & _ & ->)]; rewrite Hi in Hsub, Hhang.
    + now destruct Hhang.
    + unfold trace_of at 1, status_of at 1. simpl fst. simpl snd.
      simpl in Hsub. rewrite submitted_app, Hsub. apply IH.
Qed.

Lemma dry_run_never_submits_witness :
  submitted (trace_of (main_loop dry (chain_ticks [10; 10; 11; 11; 12] 10) initial)) = [].
Proof.
  apply (dry_run_never_submits dry (chain_ticks [10; 10; 11; 11; 12] 10) initial).
  reflexivity.
Defined.

(** X14: the loop submits at most one call per tick, and every call it
    submits targets a finalized height it read in one of its ticks, a height
    above the watermark read in the same tick. *)
Theorem calls_follow_observations (cfg : config) (envs : list tick_env) (s : flags) :
  (length (submitted (trace_of (main_loop cfg envs s))) <= length envs)%nat /\
  Forall (fun target =>
            exists env currentUp,
              In env envs /\
              cbind (finalizedHead env) (header env) = Normal target /\
              cbind (secureUpTo env) asNumber = Normal currentUp /\
              num_gt target currentUp = true)
         (submitted (trace_of (main_loop cfg envs s))).
Proof.
  revert s. induction envs as [|env rest IH]; intros s.
  - simpl. destruct (stop s); split; simpl; auto.
  - destruct (stop s) eqn:Hs.
    { rewrite main_loop_stopped by assumption. split; simpl; [lia|constructor]. }
    assert (Hone : (length (submitted (fst (fst (iteration cfg env s)))) <= 1)%nat /\
                   Forall (fun target =>
                             exists env' currentUp,
                               In env' (env :: rest) /\
                               cbind (finalizedHead env') (header env') = Normal target /\
                               cbind (secureUpTo env') asNumber = Normal currentUp /\
                               num_gt target currentUp = true)
                          (submitted (fst (fst (iteration cfg env s))))).
    { destruct (iteration_submitted cfg env s)
        as [->|(f & u & Hobs & Hneed & _ & ->)]; [split; simpl; [lia|constructor]|].
      destruct (observed_reads env f u Hobs) as [Hf Hu].
      split; [simpl; lia|]. constructor; [|constructor].
      exists env, u. repeat split; trivial. now left. }
    destruct Hone as [Hlen Hall].
    destruct (main_loop_step cfg env rest s Hs)
      as [(t & Hi & ->)|(t & o & Hi & _ & ->)]; rewrite Hi in Hlen, Hall;
      unfold trace_of in *; simpl fst in *.
    + split; [simpl length; lia|exact Hall].
    + rewrite submitted_app, length_app.
      destruct (IH (idle s)) as [IHlen IHall].
      split; [simpl length in *; lia|].
      apply Forall_app. split; [exact Hall|].
      eapply Forall_impl; [exact IHall|].
      intros target (env' & u & Hin & H1 & H2 & H3).
      exists env', u. repeat split; trivial. now right.
Qed.

Lemma sudo_statuses_first (env : tick_env) (early later : list SubmittableResult)
  (r : SubmittableResult) :
  Forall (fun r' => sudo_on_status env r' = None) early ->
  sudo_statuses env (early ++ r :: later) =
    match sudo_on_status env r with
    | Some p => p
    | None => sudo_statuses env later
    end.
Proof.
  induction 1 as [|r' early Hr' _ IH]; [reflexivity|].
  simpl. now rewrite Hr'.
Qed.

Lemma not_finalized_does_not_settle (env : tick_env) (r : SubmittableResult) :
  Tracker.isFinalized r = false -> sudo_on_status env r = None.
Proof.
  unfold Tracker.isFinalized, sudo_on_status.
  destruct (status r) as [[]|]; try reflexivity. discriminate.
Qed.

Lemma early_do_not_settle (env : tick_env) (early : list SubmittableResult) :
  Forall (fun r' => Tracker.isFinalized r' = false) early ->
  Forall (fun r' => sudo_on_status env r' = None) early.
Proof.
  intros H. eapply Forall_impl; [exact H|].
  intros r'. apply not_finalized_does_not_settle.
Qed.

(** X15: the first [Finalized] status of the sudo call decides the promise
    of [sendSudoAdvance], and whatever comes later is ignored.  Without the
    failure marker the promise resolves.  With it the promise is rejected,
    always with the fixed message: the decoded dispatch error is printed, not
    handed on. *)
Theorem first_finalized_decides (env : tick_env) (early later : list SubmittableResult)
  (r : SubmittableResult) (h : hash) :
  Forall (fun r' => Tracker.isFinalized r' = false) early ->
  status r = Some (Finalized h) ->
  (failed r = false -> sudo_statuses env (early ++ r :: later) = Fulfilled) /\
  (failed r = true ->
   (forall index error, dispatchError r = Some (Module index error) ->
      exists meta, findMetaError env index error = Normal meta) ->
   sudo_statuses env (early ++ r :: later) = Rejected (Error "sudo extrinsic failed")).
Proof.
  intros Hearly Hst.
  rewrite (sudo_statuses_first env early later r (early_do_not_settle env early Hearly)).
  unfold sudo_on_status. rewrite Hst. split; intros Hf; rewrite Hf; [reflexivity|].
  intros Hmeta. destruct (dispatchError r) as [[index error|text]|]; try reflexivity.
  destruct (Hmeta index error eq_refl) as [meta ->]. reflexivity.
Qed.

Lemma first_finalized_decides_witness :
  sudo_statuses unreachable_node
    ([ready; in_block] ++ finalized_ok :: [bad_origin]) = Fulfilled.
Proof.
  apply (first_finalized_decides unreachable_node [ready; in_block] [bad_origin]
           finalized_ok 7%N).
  - repeat constructor.
  - reflexivity.
  - reflexivity.
Defined.

(** X16: a failed sudo call whose module error the registry cannot decode
    settles nothing: the status callback throws before it reaches [unsub()]
    and [reject()].  When that status is the last one, the promise of
    [sendSudoAdvance] stays pending and the tick never completes: no
    cooldown, no interval, no later tick. *)
Theorem undecodable_failure_blocks_the_loop (cfg : config) (env : tick_env)
  (rest : list tick_env) (s : flags) (finalized currentUp : number)
  (early : list SubmittableResult) (r : SubmittableResult)
  (h : hash) (index error : N) (e : exn) :
  inFlight s = false -> stop s = false -> DRY_RUN cfg = false ->
  observed env = Normal (finalized, currentUp) ->
  num_gt finalized currentUp = true ->
  sudo env finalized = Statuses (early ++ [r]) ->
  Forall (fun r' => Tracker.isFinalized r' = false) early ->
  status r = Some (Finalized h) -> failed r = true ->
  dispatchError r = Some (Module index error) ->
  findMetaError env index error = Throw e ->
  sudo_promise env finalized = Pending /\
  main_loop cfg (env :: rest) s =
    ([ReadFinalized; ReadSecureUpTo; Submit finalized], busy s, Stuck).
Proof.
  intros Hin Hs Hdry Hobs Hneed Hsudo Hearly Hst Hf Hd Hmeta.
  assert (Hp : sudo_promise env finalized = Pending).
  { unfold sudo_promise. rewrite Hsudo.
    rewrite (sudo_statuses_first env early [] r (early_do_not_settle env early Hearly)).
    unfold sudo_on_status. now rewrite Hst, Hf, Hd, Hmeta. }
  split; [exact Hp|].
  simpl. rewrite Hs, (iteration_idle cfg env s Hin).
  unfold iteration_cases. now rewrite Hobs, Hneed, Hdry, Hp.
Qed.

Lemma undecodable_failure_blocks_the_loop_witness :
  sudo_promise undecodable (Fin 11) = Pending.
Proof.
  apply (undecodable_failure_blocks_the_loop live undecodable [] initial
           (Fin 11) (Fin 10) [ready; in_block] insufficient_balance
           7%N 6%N 2%N NotFoundError); try reflexivity.
  repeat constructor.
Defined.

(** X18: the shape of every tick of a run.  The loop head always finds
    [inFlight] off, so the skip branch of the guard is never taken: every tick
    starts with the two reads, and a tick that completes ends with the
    interval sleep. *)
Theorem tick_shape (cfg : config) (before : list tick_env) (env : tick_env) :
  status_of (main_loop cfg before initial) = Running ->
  let s := flags_of (main_loop cfg before initial) in
  let t := fst (fst (iteration cfg env s)) in
  (exists rest, t = ReadFinalized :: ReadSecureUpTo :: rest) /\
  (snd (iteration cfg env s) <> Hang ->
   exists body, t = body ++ [Sleep (INTERVAL_SEC cfg * 1000)]).
Proof.
  intros Hrun s t.
  assert (Hs : inFlight s = false) by (apply head_idle; [reflexivity|exact Hrun]).
  unfold t. rewrite (iteration_idle cfg env s Hs). unfold iteration_cases.
  destruct (observed env) as [[finalized currentUp]|e].
  2:{ split; [eauto|]. intros _.
      now exists [ReadFinalized; ReadSecureUpTo; Sleep 1000]. }
  destruct (num_gt finalized currentUp).
  2:{ split; [eauto|]. intros _. now exists [ReadFinalized; ReadSecureUpTo]. }
  destruct (DRY_RUN cfg).
  { split; [eauto|]. intros _.
    now exists [ReadFinalized; ReadSecureUpTo; DryLog finalized]. }
  destruct (sudo_promise env finalized).
  - split; [eauto|]. intros H. now destruct H.
  - destruct (cbind (secureUpTo_after env) asNumber); (split; [eauto|]); intros _.
    + now exists [ReadFinalized; ReadSecureUpTo; Submit finalized; Settled true;
                  ReadSecureUpTo].
    + now exists [ReadFinalized; ReadSecureUpTo; Submit finalized; Settled true;
                  ReadSecureUpTo; Sleep 1000].
  - split; [eauto|]. intros _.
    now exists [ReadFinalized; ReadSecureUpTo; Submit finalized; Settled false;
                Sleep 1000].
Qed.

Lemma tick_shape_witness :
  exists rest,
    fst (fst (iteration live (chain_tick 11 10)
                (flags_of (main_loop live (chain_ticks [10] 10) initial))))
    = ReadFinalized :: ReadSecureUpTo :: rest.
Proof.
  apply (tick_shape live (chain_ticks [10] 10) (chain_tick 11 10)). reflexivity.
Defined.

End AdvancerMore.

(** ** More on installSignAndSendSecure *)

Module InstallMore.
Import Js Install InstallFacts Samples MoreSamples.

(** A property the object does not own is looked up on its prototype. *)
Lemma get_inherited (h : gmap positive object) (l p : positive) (o op : object)
  (k : string) (v : jsval) :
  h !! l = Some o -> props o !! k = None -> proto o = Some p ->
  h !! p = Some op -> props op !! k = Some v ->
  get h l k = v.
Proof.
  intros Hl Hk Hp Hop Hv. unfold get. simpl. rewrite Hl, Hk, Hp.
  destruct (size h) as [|n] eqn:Hsize.
  - exfalso. apply (map_size_ne_0_lookup_2 h l); [eauto|exact Hsize].
  - simpl. now rewrite Hop, Hv.
Qed.

Lemma truthy_get_lookup (h : gmap positive object) (p : positive) (k : string) :
  truthy (get h p k) = true -> exists op, h !! p = Some op.
Proof.
  unfold get. simpl. destruct (h !! p) as [op|]; [eauto|discriminate].
Qed.

(** X19: a call that goes through changes at most one thing in the store:
    the [signAndSendSecure] property of the prototype of the instance.  Every
    other object, every other property of the prototype and every prototype
    link are as before. *)
Theorem install_changes_one_property (h h1 : gmap positive object)
  (tx p : positive) (o : object) :
  installSignAndSendSecure h tx = Normal h1 ->
  h !! tx = Some o -> proto o = Some p ->
  (forall l, l <> p -> h1 !! l = h !! l) /\
  (exists op op1,
     h !! p = Some op /\ h1 !! p = Some op1 /\ proto op1 = proto op /\
     forall k, k <> "signAndSendSecure" -> props op1 !! k = props op !! k).
Proof.
  unfold installSignAndSendSecure. intros Hi Htx Hp. rewrite Htx, Hp in Hi.
  destruct (truthy (get h p "signAndSendSecure")) eqn:Ht.
  - injection Hi as <-. split; [reflexivity|].
    destruct (truthy_get_lookup h p _ Ht) as [op Hop]. exists op, op. auto.
  - destruct (set h p "signAndSendSecure" signAndSendSecure_fn) as [h'|] eqn:Hset;
      [|discriminate].
    injection Hi as <-. apply set_lookup in Hset as (op & Hop & ->). split.
    + intros l Hl. now rewrite lookup_insert_ne.
    + exists op,
        {| props := <["signAndSendSecure" := signAndSendSecure_fn]> (props op);
           proto := proto op |}.
      repeat split; trivial.
      * apply lookup_insert_eq.
      * intros k Hk. simpl. now rewrite lookup_insert_ne.
Qed.

Lemma install_changes_one_property_witness :
  installed !! 3%positive = submittable !! 3%positive.
Proof.
  apply (install_changes_one_property submittable installed 2%positive 1%positive
           {| props := ∅; proto := Some 1%positive |}).
  - exact install_submittable.
  - reflexivity.
  - reflexivity.
  - discriminate.
Defined.

(** X20: the method is installed for every extrinsic at once.  After a
    call that had to install it, [signAndSendSecure] read on any object whose
    prototype is the patched one, and that has no property of that name
    itself, is the installed function. *)
Theorem method_visible_through_instances (h h1 : gmap positive object)
  (tx tx' p : positive) (o o' : object) :
  installSignAndSendSecure h tx = Normal h1 ->
  h !! tx = Some o -> proto o = Some p ->
  truthy (get h p "signAndSendSecure") = false ->
  h !! tx' = Some o' -> proto o' = Some p ->
  props o' !! "signAndSendSecure" = None ->
  get h1 tx' "signAndSendSecure" = signAndSendSecure_fn.
Proof.
  unfold installSignAndSendSecure. intros Hi Htx Hp Ht Htx' Hp' Hown.
  rewrite Htx, Hp, Ht in Hi.
  destruct (set h p "signAndSendSecure" signAndSendSecure_fn) as [h'|] eqn:Hset;
    [|discriminate].
  injection Hi as <-.
  destruct (decide (tx' = p)) as [->|Hne].
  - now apply get_after_set with (h := h).
  - apply set_lookup in Hset as (op & Hop & ->).
    apply get_inherited
      with (o := o') (p := p)
           (op := {| props := <["signAndSendSecure" := signAndSendSecure_fn]> (props op);
                     proto := proto op |}); trivial.
    + now rewrite lookup_insert_ne.
    + apply lookup_insert_eq.
    + apply lookup_insert_eq.
Qed.

Lemma method_visible_through_instances_witness :
  get installed 3%positive "signAndSendSecure" = signAndSendSecure_fn.
Proof.
  apply (method_visible_through_instances submittable installed 2%positive 3%positive
           1%positive {| props := ∅; proto := Some 1%positive |}
           {| props := ∅; proto := Some 1%positive |}).
  - exact install_submittable.
  - reflexivity.
  - reflexivity.
  - reflexivity.
  - reflexivity.
  - reflexivity.
  - reflexivity.
Defined.

(** X21: the test [if (proto.signAndSendSecure)] reads along the prototype
    chain.  When the prototype does not own the property but inherits a
    truthy one from its own prototype, the call installs nothing and leaves
    the store as it is. *)
Theorem inherited_method_blocks_install (h : gmap positive object)
  (tx p g : positive) (o op og : object) (v : jsval) :
  h !! tx = Some o -> proto o = Some p ->
  h !! p = Some op -> props op !! "signAndSendSecure" = None -> proto op = Some g ->
  h !! g = Some og -> props og !! "signAndSendSecure" = Some v -> truthy v = true ->
  installSignAndSendSecure h tx = Normal h.
Proof.
  intros Htx Hp Hop Hown Hg Hog Hv Ht.
  apply install_already with (p := p) (o := o); trivial.
  now rewrite (get_inherited h p g op og _ v Hop Hown Hg Hog Hv).
Qed.

Lemma inherited_method_blocks_install_witness :
  installSignAndSendSecure inheriting 3%positive = Normal inheriting.
Proof.
  apply (inherited_method_blocks_install inheriting 3%positive 2%positive 1%positive
           {| props := ∅; proto := Some 2%positive |}
           {| props := ∅; proto := Some 1%positive |}
           {| props := {[ "signAndSendSecure" := JBool true ]}; proto := None |}
           (JBool true)); reflexivity.
Defined.

End InstallMore.
